(** * BusinessServicePortal: media subsystem

    A shallow embedding of [src/lib/video-utils.ts], [src/lib/supabase-storage.ts]
    (both storage back ends), the [FileUpload] component's [handleFileSelect] and
    the [MediaManager] component's [handleDelete] / [getFileName], together with
    the properties the specification states about them; then the listings of
    both back ends, [MediaManager]'s [loadFiles], [FileUpload]'s [handleDelete],
    the features and media fields of the offer form and the video player, with
    further properties of the code.

    JavaScript strings are sequences of UTF-16 code units; they are modelled as
    [list N], one number per code unit.  String literals of the source are
    written [lit "..."]. *)

From Stdlib Require Import NArith ZArith Lia Ascii.
From Stdlib Require DecimalN.
From stdpp Require Import strings list gmap.

Local Open Scope N_scope.

(** ** Strings *)

Module Js.

Abbreviation char := N (only parsing).
Abbreviation str := (list N) (only parsing).

(** A source literal (ASCII only) as a sequence of code units. *)
Fixpoint lit (s : string) : str :=
  match s with
  | EmptyString => []
  | String a s' => Ascii.N_of_ascii a :: lit s'
  end.

(** The code unit of an ASCII character. *)
Definition code (a : Ascii.ascii) : char := Ascii.N_of_ascii a.
Arguments code a%_char_scope.

(** ECMAScript [LineTerminator]: LF, CR, LS, PS. *)
Definition is_line_terminator (c : char) : bool :=
  (c =? 0x0A) || (c =? 0x0D) || (c =? 0x2028) || (c =? 0x2029).

(** ECMAScript [WhiteSpace] or [LineTerminator]: what [trim] strips and what
    the class escape [\s] matches. *)
Definition is_space (c : char) : bool :=
  (c =? 0x09) || (c =? 0x0B) || (c =? 0x0C) || (c =? 0x20) || (c =? 0xA0)
  || (c =? 0x1680) || ((0x2000 <=? c) && (c <=? 0x200A))
  || (c =? 0x202F) || (c =? 0x205F) || (c =? 0x3000) || (c =? 0xFEFF)
  || is_line_terminator c.

Fixpoint trimStart (s : str) : str :=
  match s with
  | [] => []
  | c :: s' => if is_space c then trimStart s' else s
  end.

(** [String.prototype.trim]. *)
Definition trim (s : str) : str := rev (trimStart (rev (trimStart s))).

(** [s.startsWith(p)]. *)
Fixpoint starts_with (p s : str) : bool :=
  match p, s with
  | [], _ => true
  | _ :: _, [] => false
  | a :: p', b :: s' => (a =? b) && starts_with p' s'
  end.

(** [s.includes(p)]: [p] occurs at some position of [s]; the empty string
    occurs in every string. *)
Fixpoint includes (p s : str) : bool :=
  starts_with p s ||
  match s with
  | [] => false
  | _ :: s' => includes p s'
  end.

(** [s.split(sep)] for a non-empty separator.  [skip] counts the code units
    of a separator occurrence that are still to be stepped over. *)
Fixpoint split_go (sep : str) (skip : nat) (s : str) : list str :=
  match s with
  | [] => [[]]
  | c :: s' =>
      match skip with
      | S k => split_go sep k s'
      | O =>
          if starts_with sep s
          then [] :: split_go sep (pred (length sep)) s'
          else match split_go sep 0 s' with
               | seg :: rest => (c :: seg) :: rest
               | [] => [[c]]
               end
      end
  end.

(** [String.prototype.split] with a string separator: the pieces between the
    successive leftmost occurrences of [sep]; with the empty separator, the
    code units one by one. *)
Definition split (sep s : str) : list str :=
  match sep with
  | [] => map (fun c => [c]) s
  | _ :: _ => split_go sep 0 s
  end.

(** [Array.prototype.join]. *)
Fixpoint join (sep : str) (parts : list str) : str :=
  match parts with
  | [] => []
  | [p] => p
  | p :: rest => p ++ sep ++ join sep rest
  end.

(** [String(n)] for a non-negative integer: its decimal digits. *)
Fixpoint digits_of_uint (d : Decimal.uint) : str :=
  match d with
  | Decimal.Nil => []
  | Decimal.D0 d' => 48 :: digits_of_uint d'
  | Decimal.D1 d' => 49 :: digits_of_uint d'
  | Decimal.D2 d' => 50 :: digits_of_uint d'
  | Decimal.D3 d' => 51 :: digits_of_uint d'
  | Decimal.D4 d' => 52 :: digits_of_uint d'
  | Decimal.D5 d' => 53 :: digits_of_uint d'
  | Decimal.D6 d' => 54 :: digits_of_uint d'
  | Decimal.D7 d' => 55 :: digits_of_uint d'
  | Decimal.D8 d' => 56 :: digits_of_uint d'
  | Decimal.D9 d' => 57 :: digits_of_uint d'
  end.

Definition string_of_N (n : N) : str := digits_of_uint (N.to_uint n).

(** [String(z)] for an integer: a minus sign before the digits of a negative
    number. *)
Definition string_of_Z (z : Z) : str :=
  match z with
  | Zneg p => 45 :: string_of_N (Npos p)
  | _ => string_of_N (Z.to_N z)
  end.

End Js.

(** ** Regular expressions

    The three patterns of [parseVideoUrl] and the pattern of the file-name
    sanitizer, as syntax trees, with the backtracking matcher of ECMAScript
    (section "Pattern semantics"): a matcher takes the rest of the input, the
    captures so far and a continuation, and alternatives and quantifiers try
    their choices in priority order. *)

Module Regex.
Import Js.

Inductive class_item : Type :=
  | One (c : char)            (* a single code unit *)
  | Range (lo hi : char)      (* lo-hi *)
  | Space                     (* \s *)
  | Digit                     (* \d *)
  | Word.                     (* \w *)

Inductive regex : Type :=
  | Empty                                   (* the empty alternative *)
  | Chr (c : char)                          (* a literal code unit *)
  | Any                                     (* . *)
  | Cls (negated : bool) (items : list class_item)   (* [...] and [^...] *)
  | Seq (r1 r2 : regex)
  | Alt (r1 r2 : regex)                     (* r1|r2 *)
  | Star (r : regex)                        (* r* , greedy *)
  | Opt (r : regex)                         (* r? , greedy *)
  | Group (n : nat) (r : regex)             (* the n-th capturing group *)
  | Eos.                                    (* $ without the m flag *)

(** [r+] tries one mandatory iteration and then behaves as [r*]. *)
Definition Plus (r : regex) : regex := Seq r (Star r).

(** [r{n}]. *)
Fixpoint Times (n : nat) (r : regex) : regex :=
  match n with
  | O => Empty
  | S n' => Seq r (Times n' r)
  end.

(** A run of literal code units. *)
Fixpoint Lit (s : str) : regex :=
  match s with
  | [] => Empty
  | c :: s' => Seq (Chr c) (Lit s')
  end.

Definition in_item (i : class_item) (c : char) : bool :=
  match i with
  | One a => a =? c
  | Range lo hi => (lo <=? c) && (c <=? hi)
  | Space => is_space c
  | Digit => (48 <=? c) && (c <=? 57)
  | Word => ((97 <=? c) && (c <=? 122)) || ((65 <=? c) && (c <=? 90))
            || ((48 <=? c) && (c <=? 57)) || (c =? 95)
  end.

Definition in_class (items : list class_item) (c : char) : bool :=
  existsb (fun i => in_item i c) items.

(** [Canonicalize] under the [i] flag (without [u]): upper-casing.  Only the
    mapping of ASCII letters is modelled: a code unit of 128 or more is never
    canonicalized to an ASCII code unit, and every literal of the patterns
    below is ASCII, so comparisons against pattern characters are unaffected
    by the remaining Unicode case table. *)
Definition canon (ci : bool) (c : char) : char :=
  if ci && (97 <=? c) && (c <=? 122) then c - 32 else c.

(** The other ASCII letter with the same canonical form, if any. *)
Definition swapcase (c : char) : char :=
  if (97 <=? c) && (c <=? 122) then c - 32
  else if (65 <=? c) && (c <=? 90) then c + 32
  else c.

Definition chr_matches (ci : bool) (p c : char) : bool := canon ci p =? canon ci c.

(** [CharacterSetMatcher]: some member of the set has the canonical form of
    the input code unit; negation inverts the outcome. *)
Definition cls_matches (ci : bool) (negated : bool) (items : list class_item) (c : char) : bool :=
  xorb negated (in_class items c || (ci && in_class items (swapcase c))).

Abbreviation captures := (gmap nat (list N)) (only parsing).
Abbreviation cont := (list N → gmap nat (list N) → option (gmap nat (list N))) (only parsing).

(** The capturing groups written inside a pattern. *)
Fixpoint groups (r : regex) : list nat :=
  match r with
  | Seq a b | Alt a b => groups a ++ groups b
  | Star a | Opt a => groups a
  | Group n a => n :: groups a
  | _ => []
  end.

(** Entering an iteration of a quantified atom resets the atom's groups. *)
Definition clear (gs : list nat) (caps : captures) : captures :=
  foldr delete caps gs.

(** [RepeatMatcher] with min = 0 and max = ∞, greedy.  An iteration that
    consumes nothing is rejected, so at most [length s] iterations can follow
    one another; [n] is that bound and is never the reason to stop: at [n = 0]
    the input is exhausted, and the one iteration still tried there can only
    be an empty, hence rejected, one. *)
Fixpoint star_loop (body : str → captures → cont → option captures) (gs : list nat)
    (n : nat) (s : str) (caps : captures) (k : cont) : option captures :=
  match n with
  | O =>
      match body s (clear gs caps) (fun _ _ => None) with
      | Some res => Some res
      | None => k s caps
      end
  | S n' =>
      match body s (clear gs caps)
              (fun s' caps' =>
                 if (length s' <? length s)%nat
                 then star_loop body gs n' s' caps' k else None) with
      | Some res => Some res
      | None => k s caps
      end
  end.

(** The matcher of a pattern; [ci] is the [i] flag. *)
Fixpoint m (ci : bool) (r : regex) (s : str) (caps : captures) (k : cont)
    {struct r} : option captures :=
  match r with
  | Empty => k s caps
  | Chr c =>
      match s with
      | x :: s' => if chr_matches ci c x then k s' caps else None
      | [] => None
      end
  | Any =>
      match s with
      | x :: s' => if is_line_terminator x then None else k s' caps
      | [] => None
      end
  | Cls negated items =>
      match s with
      | x :: s' => if cls_matches ci negated items x then k s' caps else None
      | [] => None
      end
  | Seq r1 r2 => m ci r1 s caps (fun s' caps' => m ci r2 s' caps' k)
  | Alt r1 r2 =>
      match m ci r1 s caps k with
      | Some res => Some res
      | None => m ci r2 s caps k
      end
  | Star r' => star_loop (m ci r') (groups r') (length s) s caps k
  | Opt r' =>
      match m ci r' s (clear (groups r') caps)
              (fun s' caps' => if (length s' <? length s)%nat then k s' caps' else None) with
      | Some res => Some res
      | None => k s caps
      end
  | Group n r' =>
      m ci r' s caps
        (fun s' caps' => k s' (<[n := take (length s - length s') s]> caps'))
  | Eos =>
      match s with
      | [] => k s caps
      | _ :: _ => None
      end
  end.

(** A regular expression literal: the pattern and its [i] flag. *)
Record regexp : Type := { pattern : regex; ignoreCase : bool }.

(** One attempt at the current position; index 0 of the result is the whole
    match. *)
Definition match_here (re : regexp) (s : str) : option captures :=
  m (ignoreCase re) (pattern re) s ∅
    (fun s' caps => Some (<[O := take (length s - length s') s]> caps)).

(** [RegExp.prototype.exec] for a pattern without the [g] and [y] flags, which
    is also [String.prototype.match]: the first position, from the left, at
    which the pattern matches. *)
Fixpoint exec (re : regexp) (s : str) : option captures :=
  match match_here re s with
  | Some res => Some res
  | None =>
      match s with
      | [] => None
      | _ :: s' => exec re s'
      end
  end.

(** [RegExp.prototype.test]. *)
Definition test (re : regexp) (s : str) : bool :=
  match exec re s with Some _ => true | None => false end.

(** *** Notions used to state facts about the matcher *)

(** The least number of code units a match of the pattern consumes. *)
Fixpoint minlen (r : regex) : nat :=
  match r with
  | Chr _ | Any | Cls _ _ => 1
  | Seq a b => minlen a + minlen b
  | Alt a b => minlen a `min` minlen b
  | Group _ a => minlen a
  | Empty | Star _ | Opt _ | Eos => 0
  end.

(** [caps'] agrees with [caps] outside the groups [gs]. *)
Definition frame (gs : list nat) (caps caps' : gmap nat (list N)) : Prop :=
  ∀ i, i ∉ gs → caps' !! i = caps !! i.

(** What a successful matcher guarantees: it succeeded through its
    continuation, on a rest of the input shorter by at least [n], having
    changed the captures in [gs] only. *)
Definition passes (n : nat) (gs : list nat)
    (mt : list N → gmap nat (list N) → (list N → gmap nat (list N) → option (gmap nat (list N)))
          → option (gmap nat (list N))) : Prop :=
  ∀ s caps k res,
    mt s caps k = Some res →
    ∃ s' caps', k s' caps' = Some res ∧ (length s' + n ≤ length s)%nat ∧ frame gs caps caps'.

(** A matcher looks at its continuation only on rests of the input that are
    no longer than the input. *)
Definition local
    (mt : list N → gmap nat (list N) → (list N → gmap nat (list N) → option (gmap nat (list N)))
          → option (gmap nat (list N))) : Prop :=
  ∀ s caps k1 k2,
    (∀ s' c', (length s' ≤ length s)%nat → k1 s' c' = k2 s' c') →
    mt s caps k1 = mt s caps k2.

(** The continuation [k] hands group [n] on as it receives it. *)
Definition keeps (n : nat)
    (k : list N → gmap nat (list N) → option (gmap nat (list N))) : Prop :=
  ∀ s c res, k s c = Some res → res !! n = c !! n.

End Regex.

(** ** [src/lib/video-utils.ts] *)

Module VideoUtils.
Import Js Regex.

Inductive VideoType : Type := youtube | vimeo | direct | unknown.

Record VideoInfo : Type := {
  type : VideoType;
  url : str;
  embedUrl : option str;
  videoId : option str
}.

(** [youtubeRegex] (line 17): either [youtube.com/] followed by one of
    "one or more non-slashes, a slash, one or more of any, a slash",
    "v/, e/ or embed/", "anything, then ? or &, then v="; or [youtu.be/];
    and then, as group 1, exactly eleven code units none of which is a double
    quote, an ampersand, a question mark, a slash or white space. *)
Definition youtubeRegex : regexp := {|
  pattern :=
    Seq
      (Alt
         (Seq (Lit (lit "youtube.com/"))
            (Alt
               (Seq (Plus (Cls true [One (code "/")]))
                  (Seq (Chr (code "/")) (Seq (Plus Any) (Chr (code "/")))))
               (Alt
                  (Seq (Alt (Chr (code "v")) (Seq (Chr (code "e")) (Opt (Lit (lit "mbed")))))
                     (Chr (code "/")))
                  (Seq (Star Any)
                     (Seq (Cls false [One (code "?"); One (code "&")]) (Lit (lit "v=")))))))
         (Lit (lit "youtu.be/")))
      (Group 1
         (Times 11
            (Cls true [One 34; One (code "&"); One (code "?"); One (code "/"); Space])));
  ignoreCase := false
|}.

(** [vimeoRegex] (line 28): [vimeo.com/], then one of "channels/ and
    optionally word characters and a slash", "groups/, non-slashes, /videos/",
    "album/, digits, /video/", "video/", nothing; then, as group 1, one or
    more digits; then nothing or a slash and a question mark. *)
Definition vimeoRegex : regexp := {|
  pattern :=
    Seq (Lit (lit "vimeo.com/"))
      (Seq
         (Alt
            (Seq (Lit (lit "channels/")) (Opt (Seq (Plus (Cls false [Word])) (Chr (code "/")))))
            (Alt
               (Seq (Lit (lit "groups/"))
                  (Seq (Star (Cls true [One (code "/")])) (Lit (lit "/videos/"))))
               (Alt
                  (Seq (Lit (lit "album/"))
                     (Seq (Plus (Cls false [Digit])) (Lit (lit "/video/"))))
                  (Alt (Lit (lit "video/")) Empty))))
         (Seq (Group 1 (Plus (Cls false [Digit])))
            (Alt Empty (Seq (Chr (code "/")) (Chr (code "?"))))));
  ignoreCase := false
|}.

(** [videoExtensions] (line 39), with the [i] flag: a dot, one of mp4, webm,
    ogg, mov (group 1), optionally a question mark and any run of code units
    other than line terminators (group 2), and the end of the input. *)
Definition videoExtensions : regexp := {|
  pattern :=
    Seq (Chr (code "."))
      (Seq
         (Group 1
            (Alt (Lit (lit "mp4"))
               (Alt (Lit (lit "webm")) (Alt (Lit (lit "ogg")) (Lit (lit "mov"))))))
         (Seq (Opt (Group 2 (Seq (Chr (code "?")) (Star Any)))) Eos));
  ignoreCase := true
|}.

(** A match-array entry spliced into a template literal: a group that did not
    take part in the match reads [undefined]. *)
Definition interpolate (v : option str) : str :=
  match v with
  | Some s => s
  | None => lit "undefined"
  end.

(** [parseVideoUrl] on a string argument; [!url] holds of the empty string
    only. *)
Definition parseVideoUrl (url : str) : VideoInfo :=
  match url with
  | [] => {| type := unknown; url := []; embedUrl := None; videoId := None |}
  | _ :: _ =>
      let cleanUrl := trim url in
      match exec youtubeRegex cleanUrl with
      | Some youtubeMatch =>
          {| type := youtube;
             url := cleanUrl;
             videoId := youtubeMatch !! 1%nat;
             embedUrl :=
               Some (lit "https://www.youtube.com/embed/"
                       ++ interpolate (youtubeMatch !! 1%nat)
                       ++ lit "?rel=0&modestbranding=1") |}
      | None =>
          match exec vimeoRegex cleanUrl with
          | Some vimeoMatch =>
              {| type := vimeo;
                 url := cleanUrl;
                 videoId := vimeoMatch !! 1%nat;
                 embedUrl :=
                   Some (lit "https://player.vimeo.com/video/"
                           ++ interpolate (vimeoMatch !! 1%nat)) |}
          | None =>
              if test videoExtensions cleanUrl
              then {| type := direct; url := cleanUrl; embedUrl := None; videoId := None |}
              else {| type := unknown; url := cleanUrl; embedUrl := None; videoId := None |}
          end
      end
  end.

(** What a caller can pass at run time: a string, or anything else
    ([undefined], [null], a number, ...). *)
Inductive js_value : Type :=
  | JString (s : str)
  | JNotString.

(** [parseVideoUrl] with its run-time guard [typeof url !== 'string']. *)
Definition parseVideoUrl_value (v : js_value) : VideoInfo :=
  match v with
  | JString s => parseVideoUrl s
  | JNotString => {| type := unknown; url := []; embedUrl := None; videoId := None |}
  end.

(** [getVideoThumbnail]; a [videoId] is truthy when it is a non-empty string. *)
Definition getVideoThumbnail (videoInfo : VideoInfo) : option str :=
  match type videoInfo, videoId videoInfo with
  | youtube, Some (c :: id) =>
      Some (lit "https://img.youtube.com/vi/" ++ (c :: id) ++ lit "/maxresdefault.jpg")
  | _, _ => None
  end.

Definition isValidVideoUrl (url : str) : bool :=
  match type (parseVideoUrl url) with
  | unknown => false
  | _ => true
  end.

End VideoUtils.

(** ** Built-ins used by the components *)

Module Uri.
Import Js.

Definition hex_val (c : char) : option N :=
  if (48 <=? c) && (c <=? 57) then Some (c - 48)
  else if (97 <=? c) && (c <=? 102) then Some (c - 87)
  else if (65 <=? c) && (c <=? 70) then Some (c - 55)
  else None.

(** [ParseHexOctet]: the value of the two hexadecimal digits at the head of
    [s]; [None] when fewer than two code units are left or one of them is not
    a hexadecimal digit. *)
Definition ParseHexOctet (s : str) : option N :=
  match s with
  | h1 :: h2 :: _ =>
      match hex_val h1, hex_val h2 with
      | Some a, Some b => Some (16 * a + b)
      | _, _ => None
      end
  | _ => None
  end.

(** The number of leading 1 bits of an octet (5 stands for "five or more"). *)
Definition leading_ones (b : N) : nat :=
  if b <? 0x80 then 0
  else if b <? 0xC0 then 1
  else if b <? 0xE0 then 2
  else if b <? 0xF0 then 3
  else if b <? 0xF8 then 4
  else 5.

(** The [n] continuation escapes [%XX] expected at the head of [s]. *)
Fixpoint cont_octets (n : nat) (s : str) : option (list N) :=
  match n with
  | O => Some []
  | S n' =>
      match s with
      | p :: rest =>
          if p =? 37
          then match ParseHexOctet rest with
               | Some b => cons b <$> cont_octets n' (drop 2 rest)
               | None => None
               end
          else None
      | [] => None
      end
  end.

Definition is_cont (b : N) : bool := (0x80 <=? b) && (b <=? 0xBF).

(** The code point of a well-formed UTF-8 sequence of two to four octets: the
    continuation octets are [10xxxxxx], the encoding is the shortest one, and
    the result is neither a surrogate nor above U+10FFFF. *)
Definition utf8_decode (octets : list N) : option N :=
  match octets with
  | [b0; b1] =>
      let v := (b0 - 0xC0) * 64 + (b1 - 0x80) in
      if is_cont b1 && (0x80 <=? v) then Some v else None
  | [b0; b1; b2] =>
      let v := (b0 - 0xE0) * 4096 + (b1 - 0x80) * 64 + (b2 - 0x80) in
      if is_cont b1 && is_cont b2 && (0x800 <=? v)
         && negb ((0xD800 <=? v) && (v <=? 0xDFFF))
      then Some v else None
  | [b0; b1; b2; b3] =>
      let v := (b0 - 0xF0) * 262144 + (b1 - 0x80) * 4096 + (b2 - 0x80) * 64 + (b3 - 0x80) in
      if is_cont b1 && is_cont b2 && is_cont b3 && (0x10000 <=? v) && (v <=? 0x10FFFF)
      then Some v else None
  | _ => None
  end.

(** [UTF16EncodeCodePoint]. *)
Definition utf16_encode (v : N) : str :=
  if v <? 0x10000 then [v]
  else [0xD800 + (v - 0x10000) / 1024; 0xDC00 + (v - 0x10000) mod 1024].

(** One escape sequence, [s] being what follows its percent sign: the decoded
    code units and how many code units of [s] the sequence takes up. *)
Definition decode_escape (s : str) : option (str * nat) :=
  match ParseHexOctet s with
  | None => None
  | Some b =>
      match leading_ones b with
      | O => Some ([b], 2%nat)
      | 1%nat => None
      | S n' =>
          if (4 <=? n')%nat then None
          else
            match cont_octets n' (drop 2 s) with
            | None => None
            | Some os =>
                match utf8_decode (b :: os) with
                | None => None
                | Some v => Some (utf16_encode v, (2 + 3 * n')%nat)
                end
            end
      end
  end.

(** [Decode] with an empty set of preserved escapes; [None] stands for the
    [URIError] exception.  [skip] counts the code units of the current escape
    sequence that are still to be stepped over. *)
Fixpoint Decode (skip : nat) (s : str) : option str :=
  match s with
  | [] => Some []
  | c :: s' =>
      match skip with
      | S k => Decode k s'
      | O =>
          if c =? 37
          then match decode_escape s' with
               | None => None
               | Some (out, used) => app out <$> Decode used s'
               end
          else cons c <$> Decode 0 s'
      end
  end.

Definition decodeURIComponent (s : str) : option str := Decode 0 s.

End Uri.

(** ** [src/lib/supabase-storage.ts]: the managed back end and the raw
    object-store back end *)

Module Storage.
Import Js Regex.

Record File : Type := { name : str; size : N; contentType : str }.

(** ['product-images' | 'product-videos'] *)
Inductive Bucket : Type := product_images | product_videos.

Definition bucket_name (b : Bucket) : str :=
  match b with
  | product_images => lit "product-images"
  | product_videos => lit "product-videos"
  end.

(** An error object of the AWS SDK, as far as the code inspects it. *)
Record AwsError : Type := {
  err_name : str;
  err_message : option str;
  err_status : option N          (* $metadata.httpStatusCode *)
}.

(** What a call can throw: an [Error] made by this code, with its message, or
    an SDK error passed on as it is. *)
Inductive thrown : Type :=
  | Error (message : str)
  | Sdk (e : AwsError).

(** [err.message]; every thrown value here is an instance of [Error]. *)
Definition message_of (t : thrown) : str :=
  match t with
  | Error message => message
  | Sdk e => default [] (err_message e)
  end.

(** What a call does that is visible outside: requests to a back end and
    calls of the progress callback.  The key of a delete request has the type
    of the command's [Key] field; a command without a key never becomes a
    request, see [deleteFileFromS3]. *)
Inductive event : Type :=
  | SupabaseUpload (b : Bucket) (path : str) (f : File)
  | SupabaseRemove (b : Bucket) (paths : list str)
  | S3PutObject (bucket key : str) (f : File)
  | S3DeleteObject (bucket : str) (key : option str)
  | Progress (loaded total percentage : N).

(** A finished asynchronous call: its events in order, and the value it
    resolves to or the error it rejects with. *)
Record run (A : Type) : Type := Run { events : list event; outcome : thrown + A }.
Arguments Run {A} _ _.
Arguments events {A} _.
Arguments outcome {A} _.

(** The character class of the sanitizer, [[^a-zA-Z0-9.-]]. *)
Definition unsafe_class : list class_item :=
  [Range 97 122; Range 65 90; Range 48 57; One 46; One 45].

(** [name.replace(/[^a-zA-Z0-9.-]/g, '_')]: the pattern matches exactly one
    code unit, so the global replacement looks at every code unit in turn. *)
Definition sanitize (name : str) : str :=
  map (fun c => if cls_matches false true unsafe_class c then 95 else c) name.

Definition report (onProgress : bool) (loaded total percentage : N) : list event :=
  if onProgress then [Progress loaded total percentage] else [].

(** *** The managed back end *)

(** The path [uploadFileToSupabase] hands to the bucket (lines 14-16). *)
Definition supabase_path (timestamp : N) (file : File) : str :=
  string_of_N timestamp ++ lit "-" ++ sanitize (name file).

Section Supabase.

(** [supabase.storage.from(bucket).getPublicUrl(path).data.publicUrl], a
    function of the client library. *)
Variable getPublicUrl : Bucket → str → str.

(** [reply] is the answer of the storage service to the upload: the stored
    path, or an error message. *)
Definition uploadFileToSupabase (timestamp : N) (reply : str + str)
    (file : File) (bucket : Bucket) (onProgress : bool) : run str :=
  let filePath := supabase_path timestamp file in
  let before := report onProgress 0 (size file) 0 ++ [SupabaseUpload bucket filePath file] in
  match reply with
  | inl message => Run before (inl (Error (lit "Failed to upload file: " ++ message)))
  | inr path =>
      Run (before ++ report onProgress (size file) (size file) 100)
          (inr (getPublicUrl bucket path))
  end.

End Supabase.

(** [reply] is the answer of the storage service to the removal: an error
    message, if it refuses. *)
Definition deleteFileFromSupabase (reply : option str) (fileUrl : str) (bucket : Bucket)
    : run unit :=
  match last (split (lit "/") fileUrl) with
  | None | Some [] => Run [] (inl (Error (lit "Invalid file URL")))
  | Some fileName =>
      Run [SupabaseRemove bucket [fileName]]
          match reply with
          | Some message => inl (Error (lit "Failed to delete file: " ++ message))
          | None => inr tt
          end
  end.

(** *** The raw object-store back end *)

(** The environment the module reads; an unset variable reads as the empty
    string. *)
Record S3Config : Type := {
  region : str;
  accessKeyId : str;
  secretAccessKey : str;
  bucket : str;
  cloudFrontDomain : str
}.

Definition is_empty (s : str) : bool := match s with [] => true | _ => false end.


Definition isS3Configured (cfg : S3Config) : bool :=
  negb (is_empty (region cfg)) && negb (is_empty (accessKeyId cfg))
  && negb (is_empty (secretAccessKey cfg)) && negb (is_empty (bucket cfg)).

(** The key [uploadFileToS3] stores the file under (lines 134-136). *)
Definition s3_key (folder : str) (timestamp : N) (file : File) : str :=
  folder ++ lit "/" ++ string_of_N timestamp ++ lit "-" ++ sanitize (name file).

(** The public URL of a key: on the CloudFront domain when one is
    configured, on the bucket's own host otherwise. *)
Definition s3_url (cfg : S3Config) (key : str) : str :=
  if is_empty (cloudFrontDomain cfg)
  then lit "https://" ++ bucket cfg ++ lit ".s3." ++ region cfg ++ lit ".amazonaws.com/" ++ key
  else lit "https://" ++ cloudFrontDomain cfg ++ lit "/" ++ key.

Definition name_is (e : AwsError) (n : string) : bool := bool_decide (err_name e = lit n).

(** The [catch] block of [uploadFileToS3]. *)
Definition upload_error (e : AwsError) : thrown :=
  if name_is e "NetworkingError"
     || match err_message e with Some msg => includes (lit "fetch") msg | None => false end
  then Error (lit "Network error: Unable to connect to AWS S3. Please check:" ++ [10]
                ++ lit "1. Your AWS credentials are correct" ++ [10]
                ++ lit "2. Your S3 bucket has CORS configured" ++ [10]
                ++ lit "3. Your internet connection is stable")
  else if name_is e "AccessDenied" || bool_decide (err_status e = Some 403)
  then Error (lit "Access denied: Please check your AWS credentials and S3 bucket permissions")
  else if name_is e "InvalidAccessKeyId"
  then Error (lit "Invalid AWS Access Key ID. Please check your credentials in .env")
  else if name_is e "SignatureDoesNotMatch"
  then Error (lit "Invalid AWS Secret Access Key. Please check your credentials in .env")
  else Error (lit "Failed to upload file: "
                ++ match err_message e with
                   | Some (c :: msg) => c :: msg
                   | _ => lit "Unknown error"
                   end).

(** [reply] is the answer of S3 to the request: an SDK error, if it fails. *)
Definition uploadFileToS3 (cfg : S3Config) (timestamp : N) (reply : option AwsError)
    (file : File) (folder : str) (onProgress : bool) : run str :=
  if is_empty (bucket cfg)
  then Run [] (inl (Error (lit "AWS S3 bucket not configured. Please set VITE_AWS_S3_BUCKET in .env")))
  else if is_empty (region cfg)
  then Run [] (inl (Error (lit "AWS region not configured. Please set VITE_AWS_REGION in .env")))
  else if is_empty (accessKeyId cfg) || is_empty (secretAccessKey cfg)
  then Run [] (inl (Error (lit "AWS credentials not configured. Please set VITE_AWS_ACCESS_KEY_ID and VITE_AWS_SECRET_ACCESS_KEY in .env")))
  else
    let key := s3_key folder timestamp file in
    let before := report onProgress 0 (size file) 0 ++ [S3PutObject (bucket cfg) key file] in
    match reply with
    | Some e => Run before (inl (upload_error e))
    | None =>
        Run (before ++ report onProgress (size file) (size file) 100)
            (inr (s3_url cfg key))
    end.

(** The key [deleteFileFromS3] computes from a URL (lines 199-206); [None]
    is [undefined], the second element of a split that has only one. *)
Definition s3_key_of_url (cfg : S3Config) (fileUrl : str) : option str :=
  if includes (cloudFrontDomain cfg) fileUrl
  then split (cloudFrontDomain cfg ++ lit "/") fileUrl !! 1%nat
  else
    match split (lit ".amazonaws.com/") fileUrl !! 1%nat with
    | Some (c :: k) => Some (c :: k)
    | _ => Some fileUrl
    end.

(** The SDK is not part of the repository.  Before [send] sends a
    [DeleteObjectCommand] it puts the key into the path of the request, and
    refuses, with an error of its own and without sending anything, a
    command whose key is [undefined]: that error is [noKey].  Whether it
    refuses an empty key in the same way depends on its version: [emptyKey]
    is the error it throws then, [None] if it sends the request. *)
Record KeyCheck : Type := { noKey : AwsError; emptyKey : option AwsError }.

Definition refused (sdk : KeyCheck) (key : option str) : option AwsError :=
  match key with
  | None => Some (noKey sdk)
  | Some [] => emptyKey sdk
  | Some (_ :: _) => None
  end.

(** [deleteFileFromS3] (lines 194-214).  [reply] is the answer of S3 to a
    request that was sent: an SDK error, if it fails.  The function has no
    [catch]: what [send] throws is what the call rejects with. *)
Definition deleteFileFromS3 (sdk : KeyCheck) (cfg : S3Config) (reply : option AwsError)
    (fileUrl : str) : run unit :=
  if is_empty (bucket cfg)
  then Run [] (inl (Error (lit "AWS S3 bucket not configured")))
  else
    let key := s3_key_of_url cfg fileUrl in
    match refused sdk key with
    | Some e => Run [] (inl (Sdk e))
    | None =>
        Run [S3DeleteObject (bucket cfg) key]
            match reply with
            | Some e => inl (Sdk e)
            | None => inr tt
            end
    end.

End Storage.

(** ** The [FileUpload] component *)

Module FileUpload.
Import Js Storage.

(** The component's local state. *)
Record state : Type := {
  uploading : bool;
  progress : N;
  error : str;
  success : bool
}.

(** What the handler does besides updating its state: the events of the
    storage call, then the calls it makes to its surroundings. *)
Inductive action : Type :=
  | StorageEvent (e : event)
  | OnUploadComplete (fileUrl : str)
  | SetTimeout (milliseconds : N)        (* clears [success] later *)
  | ClearFileInput.

Section Handler.

Variable getPublicUrl : Bucket → str → str.

(** [handleFileSelect] (lines 82-115).  [selected] is [e.target.files?.[0]],
    [maxSizeMB] the component's limit, [timestamp] and [reply] the clock and
    the answer of the storage service during the upload.  The limit is an
    integer number of megabytes (the callers pass 10, 50 and 100), and the
    product with 1024 * 1024 is exact. *)
Definition handleFileSelect (bucket : Bucket) (maxSizeMB : Z) (timestamp : N)
    (reply : str + str) (st : state) (selected : option File) : state * list action :=
  match selected with
  | None => (st, [])
  | Some file =>
      let maxSizeBytes := (maxSizeMB * 1024 * 1024)%Z in
      if (Z.of_N (size file) >? maxSizeBytes)%Z
      then ({| uploading := uploading st;
               progress := progress st;
               error := lit "File size must be less than " ++ string_of_Z maxSizeMB ++ lit "MB";
               success := success st |}, [])
      else
        let r := uploadFileToSupabase getPublicUrl timestamp reply file bucket true in
        let calls := map StorageEvent (events r) in
        match outcome r with
        | inr fileUrl =>
            ({| uploading := false; progress := 0; error := []; success := true |},
             calls ++ [OnUploadComplete fileUrl; SetTimeout 3000; ClearFileInput])
        | inl err =>
            ({| uploading := false; progress := 0; error := message_of err;
                success := false |},
             calls ++ [ClearFileInput])
        end
  end.

End Handler.

(** The requests to a storage back end among the actions of a handler. *)
Definition storage_requests (acts : list action) : list event :=
  omap (fun a =>
          match a with
          | StorageEvent (Progress _ _ _) => None
          | StorageEvent e => Some e
          | _ => None
          end) acts.

End FileUpload.

(** ** The [MediaManager] component *)

Module MediaManager.
Import Js Storage.

Inductive kind : Type := image | video.

(** The component's local state, as far as [handleDelete] touches it. *)
Record state : Type := {
  images : list str;
  videos : list str;
  deleting : option str;
  error : str
}.

(** A call of one of the state setters.  The component calls them with
    values, never with updater functions: an update overwrites its field,
    whatever the field holds by then. *)
Inductive update : Type :=
  | SetImages (urls : list str)
  | SetVideos (urls : list str)
  | SetDeleting (url : option str)
  | SetError (message : str).

Definition set (st : state) (u : update) : state :=
  match u with
  | SetImages urls =>
      {| images := urls; videos := videos st; deleting := deleting st; error := error st |}
  | SetVideos urls =>
      {| images := images st; videos := urls; deleting := deleting st; error := error st |}
  | SetDeleting url =>
      {| images := images st; videos := videos st; deleting := url; error := error st |}
  | SetError message =>
      {| images := images st; videos := videos st; deleting := deleting st; error := message |}
  end.

Definition commit (st : state) (updates : list update) : state := fold_left set updates st.

(** A call of an asynchronous handler: the updates it makes before its
    [await], the events of the call it waits for, and the updates it makes
    when that call has returned. *)
Record call : Type := Call {
  before : list update;
  awaited : list event;
  after : list update
}.

(** [handleDelete] (lines 38-59).  The handler is a closure of the render the
    click was made in: [seen] is the state of that render, and it is the
    [images] and [videos] of [seen] that the handler filters after the
    [await], whatever the component holds by then.  [confirmed] is the answer
    to the confirmation dialog, [reply] the answer of the storage service. *)
Definition handleDelete (confirmed : bool) (reply : option str) (seen : state)
    (fileUrl : str) (type : kind) : call :=
  if negb confirmed then Call [] [] []
  else
    let bucket := match type with image => product_images | video => product_videos end in
    let r := deleteFileFromSupabase reply fileUrl bucket in
    Call [SetDeleting (Some fileUrl); SetError []]
         (events r)
         (match outcome r with
          | inr _ =>
              match type with
              | image => [SetImages (filter (fun url => url ≠ fileUrl) (images seen))]
              | video => [SetVideos (filter (fun url => url ≠ fileUrl) (videos seen))]
              end
          | inl err => [SetError (message_of err)]
          end ++ [SetDeleting None]).

(** The mounted component, its files loaded: its current state, the calls of
    [handleDelete] that are waiting for the storage service (what each will
    do when its call returns), and the requests sent so far. *)
Record component : Type := {
  current : state;
  in_flight : list (list update);
  sent : list event
}.

(** What happens to the component: a click on the delete button of an entry,
    with the answer to the dialog and the answer the storage service is going
    to give; or the return of the storage call of one of the handlers in
    flight. *)
Inductive action : Type :=
  | Click (fileUrl : str) (type : kind) (confirmed : bool) (reply : option str)
  | Settle (index : nat).

(** The delete button of [fileUrl] (lines 135-136 and 198-199): there is one
    for each entry of the list of its kind, and the one of the URL in
    [deleting] is disabled. *)
Definition offered (st : state) (fileUrl : str) (type : kind) : bool :=
  bool_decide (fileUrl ∈ match type with image => images st | video => videos st end)
  && negb (bool_decide (deleting st = Some fileUrl)).

(** One action; [None] when the component does not offer it.  A click runs
    the handler of the current render.  A handler that waits for no request
    (the dialog was dismissed, or the storage call threw before sending)
    finishes before anything else can happen; the others finish when their
    call returns, in any order. *)
Definition step (c : component) (a : action) : option component :=
  match a with
  | Click fileUrl type confirmed reply =>
      if offered (current c) fileUrl type
      then
        let h := handleDelete confirmed reply (current c) fileUrl type in
        match awaited h with
        | [] =>
            Some {| current := commit (commit (current c) (before h)) (after h);
                    in_flight := in_flight c; sent := sent c |}
        | _ :: _ =>
            Some {| current := commit (current c) (before h);
                    in_flight := in_flight c ++ [after h];
                    sent := sent c ++ awaited h |}
        end
      else None
  | Settle index =>
      match in_flight c !! index with
      | Some updates =>
          Some {| current := commit (current c) updates;
                  in_flight := delete index (in_flight c); sent := sent c |}
      | None => None
      end
  end.

Fixpoint run (c : component) (actions : list action) : option component :=
  match actions with
  | [] => Some c
  | a :: rest =>
      match step c a with
      | Some c' => run c' rest
      | None => None
      end
  end.

(** [getFileName] (lines 61-65); [None] when [decodeURIComponent] throws. *)
Definition getFileName (url : str) : option str :=
  let parts := split (lit "/") url in
  let fileName := default [] (last parts) in
  (fun decoded => join (lit "-") (drop 1 (split (lit "-") decoded)))
    <$> Uri.decodeURIComponent fileName.

End MediaManager.

(** ** Notions the specification uses *)

Module Spec.
Import Js VideoUtils Storage.

(** "A Latin letter, digit, dot, or dash". *)
Definition kept (c : char) : bool :=
  ((65 <=? c) && (c <=? 90)) || ((97 <=? c) && (c <=? 122))
  || ((48 <=? c) && (c <=? 57)) || (c =? 46) || (c =? 45).

(** The lower-case form of an ASCII letter. *)
Definition lower (c : char) : char :=
  if (65 <=? c) && (c <=? 90) then c + 32 else c.

(** "One of the extensions mp4, webm, ogg, mov (case-insensitively)". *)
Definition video_extension (e : str) : Prop :=
  map lower e ∈ [lit "mp4"; lit "webm"; lit "ogg"; lit "mov"].

(** "Optionally followed by a query string": nothing, or a question mark and
    a run of code units; [one_line] restricts the run to code units other
    than line terminators. *)
Definition query (q : str) : Prop :=
  q = [] ∨ ∃ q', q = code "?" :: q'.

Definition one_line (q : str) : Prop :=
  Forall (λ c, is_line_terminator c = false) q.

(** A hosted type. *)
Definition hosted (t : VideoType) : Prop := t = youtube ∨ t = vimeo.

(** A string of white space only (the empty string included). *)
Definition blank (s : str) : Prop := Forall (λ c, is_space c = true) s.

(** The variant returned for input that is not recognized. *)
Definition unrecognized (url : str) : VideoInfo :=
  {| type := unknown; url := url; embedUrl := None; videoId := None |}.


(** The outcome of a delete request once it has been sent. *)
Definition s3_sent (reply : option AwsError) : thrown + unit :=
  match reply with
  | Some e => inl (Sdk e)
  | None => inr tt
  end.

Definition supabase_sent (reply : option str) : thrown + unit :=
  match reply with
  | Some message => inl (Error (lit "Failed to delete file: " ++ message))
  | None => inr tt
  end.

(** The requests to a back end among the events of a call. *)
Definition is_request (e : event) : bool :=
  match e with Progress _ _ _ => false | _ => true end.

Definition requests (evs : list event) : list event := List.filter is_request evs.





End Spec.

(** ** Sample data *)

Module Samples.
Import Js Storage.

Definition cdn_cfg : S3Config :=
  {| region := lit "eu-west-1"; accessKeyId := lit "AKIAEXAMPLE";
     secretAccessKey := lit "secret"; bucket := lit "media";
     cloudFrontDomain := lit "cdn.example.com" |}.

Definition photo : File :=
  {| name := lit "my photo.png"; size := 10; contentType := lit "image/png" |}.

(** A video of exactly 50 MB, and one a byte larger. *)
Definition clip_50MB : File :=
  {| name := lit "clip.mp4"; size := 52428800; contentType := lit "video/mp4" |}.

Definition clip_over : File :=
  {| name := lit "clip.mp4"; size := 52428801; contentType := lit "video/mp4" |}.

Definition idle : FileUpload.state :=
  {| FileUpload.uploading := false; FileUpload.progress := 0;
     FileUpload.error := []; FileUpload.success := false |}.

(** An SDK that refuses an empty key as it refuses a missing one. *)
Definition strict_sdk : KeyCheck :=
  {| noKey := {| err_name := lit "Error";
                 err_message := Some (lit "No value provided for input HTTP label: Key.");
                 err_status := None |};
     emptyKey := Some {| err_name := lit "Error";
                         err_message :=
                           Some (lit "Empty value provided for input HTTP label: Key.");
                         err_status := None |} |}.






End Samples.

(** ** The texts a pattern matches *)

Module Language.
Import Js Regex.

(** [lang ci r u]: the pattern [r] can match exactly the text [u] (what a
    match consumes; the end anchor consumes nothing). *)
Inductive lang (ci : bool) : regex → list N → Prop :=
  | lang_empty : lang ci Empty []
  | lang_chr c x : chr_matches ci c x = true → lang ci (Chr c) [x]
  | lang_any x : is_line_terminator x = false → lang ci Any [x]
  | lang_cls negated items x :
      cls_matches ci negated items x = true → lang ci (Cls negated items) [x]
  | lang_seq r1 r2 u1 u2 : lang ci r1 u1 → lang ci r2 u2 → lang ci (Seq r1 r2) (u1 ++ u2)
  | lang_alt_l r1 r2 u : lang ci r1 u → lang ci (Alt r1 r2) u
  | lang_alt_r r1 r2 u : lang ci r2 u → lang ci (Alt r1 r2) u
  | lang_star_nil r : lang ci (Star r) []
  | lang_star_cons r u1 u2 : lang ci r u1 → lang ci (Star r) u2 → lang ci (Star r) (u1 ++ u2)
  | lang_opt_none r : lang ci (Opt r) []
  | lang_opt_some r u : lang ci r u → lang ci (Opt r) u
  | lang_group n r u : lang ci r u → lang ci (Group n r) u
  | lang_eos : lang ci Eos [].

(** A matcher succeeds only by consuming a text in [P] and handing the rest
    to its continuation. *)
Definition consumes (P : list N → Prop)
    (mt : list N → gmap nat (list N) → (list N → gmap nat (list N) → option (gmap nat (list N)))
          → option (gmap nat (list N))) : Prop :=
  ∀ s caps k res,
    mt s caps k = Some res →
    ∃ u s' caps', s = u ++ s' ∧ P u ∧ k s' caps' = Some res.

(** A code unit allowed in a YouTube identifier: not a double quote, an
    ampersand, a question mark, a slash or white space. *)
Definition id_char (c : char) : bool :=
  negb ((c =? 34) || (c =? 38) || (c =? 63) || (c =? 47) || is_space c).

Definition is_digit (c : char) : bool := (48 <=? c) && (c <=? 57).

(** The host texts the hosted patterns start with. *)
Definition markers (t : VideoUtils.VideoType) : list str :=
  match t with
  | VideoUtils.youtube => [lit "youtube.com/"; lit "youtu.be/"]
  | VideoUtils.vimeo => [lit "vimeo.com/"]
  | _ => []
  end.

End Language.

(** ** Outcomes *)

Module Outcome.
Import Js Storage.

(** The call resolved (it did not reject). *)
Definition succeeded {A : Type} (o : thrown + A) : bool :=
  match o with inr _ => true | inl _ => false end.

End Outcome.

(** ** Listing stored objects ([src/lib/supabase-storage.ts]) *)

Module Listing.
Import Js Storage.

(** The requests of the listing functions. *)
Inductive list_request : Type :=
  | SupabaseList (b : Bucket)                   (* list('', newest first) *)
  | S3ListObjects (bucket prefix : str).        (* ListObjectsV2 *)

Section Supabase.

Variable getPublicUrl : Bucket → str → str.

(** [listFilesInSupabase] (lines 72-95).  [reply] is the answer of the
    storage service: an error message, or [data], which may be [null], with
    the names of the objects in the order the service returns them. *)
Definition listFilesInSupabase (reply : str + option (list str)) (bucket : Bucket)
    : list list_request * (thrown + list str) :=
  ([SupabaseList bucket],
   match reply with
   | inl message => inl (Error (lit "Failed to list files: " ++ message))
   | inr data =>
       let files := default [] data in
       inr (map (getPublicUrl bucket)
              (filter (λ name, name ≠ lit ".emptyFolderPlaceholder") files))
   end).

End Supabase.

(** The [catch] block of [listFilesInS3]. *)
Definition list_error (cfg : S3Config) (e : AwsError) : thrown :=
  if name_is e "NetworkingError"
     || match err_message e with Some msg => includes (lit "fetch") msg | None => false end
  then Error (lit "Network error: Unable to connect to AWS S3. Please check your internet connection and AWS configuration.")
  else if name_is e "AccessDenied" || bool_decide (err_status e = Some 403)
  then Error (lit "Access denied: Please check your AWS credentials have ListBucket permissions")
  else if name_is e "InvalidAccessKeyId"
  then Error (lit "Invalid AWS Access Key ID")
  else if name_is e "SignatureDoesNotMatch"
  then Error (lit "Invalid AWS Secret Access Key")
  else if name_is e "NoSuchBucket"
  then Error (lit "S3 bucket " ++ [34] ++ bucket cfg ++ [34] ++ lit " does not exist")
  else Error (lit "Failed to list files: "
                ++ match err_message e with
                   | Some (c :: msg) => c :: msg
                   | _ => lit "Unknown error"
                   end).

(** [listFilesInS3] (lines 216-271).  [reply] is the answer of S3: an SDK
    error, or [Contents], which may be absent, with the keys found. *)
Definition listFilesInS3 (cfg : S3Config) (reply : AwsError + option (list str))
    (folder : str) : list list_request * (thrown + list str) :=
  if is_empty (bucket cfg)
  then ([], inl (Error (lit "AWS S3 bucket not configured")))
  else if is_empty (region cfg)
  then ([], inl (Error (lit "AWS region not configured")))
  else if is_empty (accessKeyId cfg) || is_empty (secretAccessKey cfg)
  then ([], inl (Error (lit "AWS credentials not configured")))
  else
    ([S3ListObjects (bucket cfg) (folder ++ lit "/")],
     match reply with
     | inl e => inl (list_error cfg e)
     | inr contents => inr (map (s3_url cfg) (default [] contents))
     end).

End Listing.

(** ** [MediaManager]: loading the gallery *)

Module Gallery.
Import Js Storage Listing.

Record state : Type := {
  images : list str;
  videos : list str;
  loading : bool;
  error : str
}.

Section Load.

Variable getPublicUrl : Bucket → str → str.

(** [loadFiles] (lines 14-32).  Both listings are started; [Promise.all]
    resolves when both have, and rejects with the error of the listing that
    fails first ([images_first] tells which of two failures comes first). *)
Definition loadFiles (image_reply video_reply : str + option (list str))
    (images_first : bool) (st : state) : state * list list_request :=
  let ri := listFilesInSupabase getPublicUrl image_reply product_images in
  let rv := listFilesInSupabase getPublicUrl video_reply product_videos in
  let failed err :=
    {| images := images st; videos := videos st; loading := false;
       error := message_of err |} in
  (match ri.2, rv.2 with
   | inr imageFiles, inr videoFiles =>
       {| images := imageFiles; videos := videoFiles; loading := false; error := [] |}
   | inl err, inr _ => failed err
   | inr _, inl err => failed err
   | inl err_i, inl err_v => failed (if images_first then err_i else err_v)
   end, ri.1 ++ rv.1).

End Load.

End Gallery.

(** ** [FileUpload]: removing the current file *)

Module FileUploadDelete.
Import Js Storage.

Inductive action : Type :=
  | StorageEvent (e : event)
  | OnDelete
  | SetTimeout (milliseconds : N).       (* clears [success] later *)

(** [handleDelete] of the upload component (lines 117-136).
    [currentFileUrl] is the optional property of that name, [onDelete] tells
    whether the callback of that name was given, [reply] is the answer of
    the storage service. *)
Definition handleDelete (bucket : Bucket) (currentFileUrl : option str) (onDelete : bool)
    (reply : option str) (st : FileUpload.state) : FileUpload.state * list action :=
  match currentFileUrl with
  | None | Some [] => (st, [])
  | Some fileUrl =>
      let r := deleteFileFromSupabase reply fileUrl bucket in
      let calls := map StorageEvent (events r) in
      match outcome r with
      | inr _ =>
          ({| FileUpload.uploading := false;
              FileUpload.progress := FileUpload.progress st;
              FileUpload.error := [];
              FileUpload.success := true |},
           calls ++ (if onDelete then [OnDelete] else []) ++ [SetTimeout 3000])
      | inl err =>
          ({| FileUpload.uploading := false;
              FileUpload.progress := FileUpload.progress st;
              FileUpload.error := message_of err;
              FileUpload.success := FileUpload.success st |},
           calls)
      end
  end.

End FileUploadDelete.

(** ** The offer form ([OfferModal]) *)

Module OfferModal.
Import Js.

(** An entry of the features array: a text; the hole that an assignment
    beyond the end of the array leaves behind; or [undefined], which is what
    a hole is read as when the array is copied. *)
Inductive slot : Type :=
  | Text (s : str)
  | Undefined
  | Hole.

(** The copy [[...features]]: the iteration reads every index, a hole as
    [undefined]. *)
Definition spread (features : list slot) : list slot :=
  map (fun f => match f with Hole => Undefined | _ => f end) features.

(** [features.filter((_, i) => i !== index)], [i] being the index of the
    head: [filter] does not visit holes, so they are dropped as well. *)
Fixpoint filter_index (i index : nat) (features : list slot) : list slot :=
  match features with
  | [] => []
  | f :: rest =>
      match f with
      | Hole => filter_index (S i) index rest
      | _ =>
          if (i =? index)%nat
          then filter_index (S i) index rest
          else f :: filter_index (S i) index rest
      end
  end.

(** [addFeature] (lines 80-82). *)
Definition addFeature (features : list slot) : list slot := spread features ++ [Text []].

(** [removeFeature] (lines 84-87): drop the entry at [index]; an array that
    would become empty is replaced by one empty text. *)
Definition removeFeature (index : nat) (features : list slot) : list slot :=
  let newFeatures := filter_index 0 index features in
  match newFeatures with
  | [] => [Text []]
  | _ :: _ => newFeatures
  end.

(** [updateFeature] (lines 89-93): assignment at [index] of a copy; beyond
    the end the copy is extended, with holes in between. *)
Definition updateFeature (index : nat) (value : str) (features : list slot) : list slot :=
  let newFeatures := spread features in
  if (index <? length newFeatures)%nat
  then <[index := Text value]> newFeatures
  else newFeatures ++ replicate (index - length newFeatures) Hole ++ [Text value].

(** The features of an offer opened for editing (line 43): the offer's
    array when it is a non-empty array, one empty text otherwise. *)
Definition initialFeatures (offer_features : option (list slot)) : list slot :=
  match offer_features with
  | Some (f :: fs) => f :: fs
  | _ => [Text []]
  end.

(** [s.trim() || null]. *)
Definition trimmed_or_null (s : str) : option str :=
  match trim s with
  | [] => None
  | c :: r => Some (c :: r)
  end.

(** The features sent on submit (line 55): the entries that are not blank.
    [filter] does not visit holes; on [undefined] the test [f.trim()] throws,
    which is [None]. *)
Fixpoint submittedFeatures (features : list slot) : option (list str) :=
  match features with
  | [] => Some []
  | Hole :: rest => submittedFeatures rest
  | Undefined :: _ => None
  | Text f :: rest =>
      match submittedFeatures rest with
      | None => None
      | Some kept => Some (match trim f with [] => kept | _ :: _ => f :: kept end)
      end
  end.

Definition is_text (f : slot) : bool :=
  match f with Text _ => true | _ => false end.

(** The user actions on the features array. *)
Inductive edit : Type :=
  | Add
  | Remove (index : nat)
  | Update (index : nat) (value : str).

Definition apply_edit (features : list slot) (e : edit) : list slot :=
  match e with
  | Add => addFeature features
  | Remove index => removeFeature index features
  | Update index value => updateFeature index value features
  end.

(** The form offers edits only at the indices of the array, and a removal
    only while the array has more than one index (line 193). *)
Definition shown (features : list slot) (e : edit) : bool :=
  match e with
  | Add => true
  | Remove index => (index <? length features)%nat && (1 <? length features)%nat
  | Update index _ => (index <? length features)%nat
  end.

(** A session of edits, each offered by the form in the state it is made
    in. *)
Fixpoint session (features : list slot) (edits : list edit) : option (list slot) :=
  match edits with
  | [] => Some features
  | e :: rest =>
      if shown features e then session (apply_edit features e) rest else None
  end.

End OfferModal.

(** ** The video player component *)

Module VideoPlayer.
Import Js VideoUtils.

Section Player.

(** The numbers the video element reports (times in seconds); the component
    only stores them. *)
Variable time : Type.
Variable zero : time.

Record state : Type := {
  videoInfo : option VideoInfo;
  isPlaying : bool;
  isMuted : bool;
  currentTime : time;
  duration : time;
  isLoading : bool;
  error : option str
}.

(** The state of a freshly mounted component (lines 22-28). *)
Definition initial (autoPlay : bool) : state :=
  {| videoInfo := None; isPlaying := autoPlay; isMuted := false;
     currentTime := zero; duration := zero; isLoading := true; error := None |}.

(** What the component renders (lines 129-255): the spinner, the error
    panel, the embedded frame with its source and loading overlay, the video
    element with its source, loading overlay and controls, or nothing. *)
Inductive view : Type :=
  | Spinner
  | ErrorPanel (message : str)
  | Frame (src : option str) (overlay : bool)
  | Native (src : str) (overlay : bool) (controls : bool)
  | Nothing.

Definition render (showControls : bool) (st : state) : view :=
  match videoInfo st with
  | None => Spinner
  | Some info =>
      match error st with
      | Some (c :: message) => ErrorPanel (c :: message)
      | _ =>
          match type info with
          | youtube | vimeo => Frame (embedUrl info) (isLoading st)
          | direct => Native (url info) (isLoading st) (showControls && negb (isLoading st))
          | unknown => Nothing
          end
      end
  end.

(** The effect on [url] (lines 31-41). *)
Definition classify (url : str) (st : state) : state :=
  let info := parseVideoUrl url in
  match type info with
  | unknown =>
      {| videoInfo := Some info; isPlaying := isPlaying st; isMuted := isMuted st;
         currentTime := currentTime st; duration := duration st;
         isLoading := false; error := Some (lit "Unsupported video format") |}
  | _ =>
      {| videoInfo := Some info; isPlaying := isPlaying st; isMuted := isMuted st;
         currentTime := currentTime st; duration := duration st;
         isLoading := isLoading st; error := None |}
  end.

Definition has_video (v : view) : bool :=
  match v with Native _ _ _ => true | _ => false end.

Definition has_frame (v : view) : bool :=
  match v with Frame _ _ => true | _ => false end.

Definition has_controls (v : view) : bool :=
  match v with Native _ _ controls => controls | _ => false end.

(** A mounted component: its state, and whether the effect with the empty
    dependency list (lines 43-81) attached its listeners to a video element. *)
Record mounted : Type := { current : state; listening : bool }.

(** Mounting.  Both effects run once, after the first render and before any
    other: the first classifies the URL; the second attaches the listeners
    if [videoRef.current] is set, that is, if the first render produced the
    video element, and never runs again. *)
Definition mount (url : str) (autoPlay showControls : bool) : mounted :=
  let first := initial autoPlay in
  {| current := classify url first;
     listening := has_video (render showControls first) |}.

(** What can happen to a mounted component. *)
Inductive event : Type :=
  | TimeUpdate (t : time)            (* events of the video element *)
  | DurationChange (d : time)
  | Played
  | Paused
  | LoadedData
  | CanPlay
  | Failed
  | FrameLoaded                      (* onLoad of the frame *)
  | ToggleMute                       (* the controls *)
  | Seek (newTime : time)
  | UrlChanged (url : str).          (* a new [url] property *)

Definition with_time (st : state) (t : time) : state :=
  {| videoInfo := videoInfo st; isPlaying := isPlaying st; isMuted := isMuted st;
     currentTime := t; duration := duration st; isLoading := isLoading st;
     error := error st |}.

Definition with_duration (st : state) (d : time) : state :=
  {| videoInfo := videoInfo st; isPlaying := isPlaying st; isMuted := isMuted st;
     currentTime := currentTime st; duration := d; isLoading := isLoading st;
     error := error st |}.

Definition with_playing (st : state) (b : bool) : state :=
  {| videoInfo := videoInfo st; isPlaying := b; isMuted := isMuted st;
     currentTime := currentTime st; duration := duration st; isLoading := isLoading st;
     error := error st |}.

Definition with_muted (st : state) (b : bool) : state :=
  {| videoInfo := videoInfo st; isPlaying := isPlaying st; isMuted := b;
     currentTime := currentTime st; duration := duration st; isLoading := isLoading st;
     error := error st |}.

Definition loaded (st : state) : state :=
  {| videoInfo := videoInfo st; isPlaying := isPlaying st; isMuted := isMuted st;
     currentTime := currentTime st; duration := duration st; isLoading := false;
     error := error st |}.

Definition failed (st : state) : state :=
  {| videoInfo := videoInfo st; isPlaying := isPlaying st; isMuted := isMuted st;
     currentTime := currentTime st; duration := duration st; isLoading := false;
     error := Some (lit "Failed to load video") |}.

(** One event.  An event of the video element reaches a handler only if the
    listeners were attached and the element is rendered; the frame and the
    controls raise events only while they are rendered. *)
Definition step (showControls : bool) (m : mounted) (e : event) : mounted :=
  let st := current m in
  let v := render showControls st in
  let heard := listening m && has_video v in
  let st' :=
    match e with
    | TimeUpdate t => if heard then with_time st t else st
    | DurationChange d => if heard then with_duration st d else st
    | Played => if heard then with_playing st true else st
    | Paused => if heard then with_playing st false else st
    | LoadedData | CanPlay => if heard then loaded st else st
    | Failed => if heard then failed st else st
    | FrameLoaded => if has_frame v then loaded st else st
    | ToggleMute => if has_controls v then with_muted st (negb (isMuted st)) else st
    | Seek newTime => if has_controls v then with_time st newTime else st
    | UrlChanged url => classify url st
    end in
  {| current := st'; listening := listening m |}.

Definition run (showControls : bool) (m : mounted) (events : list event) : mounted :=
  foldl (step showControls) m events.

Definition is_url_change (e : event) : bool :=
  match e with UrlChanged _ => true | _ => false end.

(** [togglePlay] (lines 83-92), called by a click on the video element and
    on the play button: what it asks of the element. *)
Inductive command : Type := PlayVideo | PauseVideo.

Definition togglePlay (st : state) : command :=
  if isPlaying st then PauseVideo else PlayVideo.

End Player.

Arguments videoInfo {time} _.
Arguments isPlaying {time} _.
Arguments isMuted {time} _.
Arguments currentTime {time} _.
Arguments duration {time} _.
Arguments isLoading {time} _.
Arguments error {time} _.
Arguments render {time} _ _.
Arguments current {time} _.
Arguments listening {time} _.
Arguments step {time} _ _ _.
Arguments run {time} _ _ _.
Arguments is_url_change {time} _.
Arguments togglePlay {time} _.
Arguments UrlChanged {time} _.
Arguments FrameLoaded {time}.

(** The numbers [formatTime] is modelled for: [NaN], and a whole number of
    seconds below 2^53.  For these the division, the remainder and
    [Math.floor] of the source, which computes in doubles, are exact, and
    the number is printed with all its digits. *)
Inductive seconds : Type :=
  | NaN
  | Whole (n : N).

Definition exact (n : N) : bool := n <? 2 ^ 53.

(** [s.padStart(len, fill)] with a fill of one code unit. *)
Definition padStart (len : nat) (fill : char) (s : str) : str :=
  replicate (len - length s) fill ++ s.

(** [formatTime] (lines 122-127); [None] for a number that the model does
    not cover, where doubles round and the digits differ. *)
Definition formatTime (s : seconds) : option str :=
  match s with
  | NaN => Some (lit "0:00")
  | Whole n =>
      if exact n
      then
        let mins := n / 60 in
        let secs := n mod 60 in
        Some (string_of_N mins ++ lit ":" ++ padStart 2 (code "0") (string_of_N secs))
      else None
  end.

End VideoPlayer.

(** * Properties *)

(** ** The matcher *)

Module RegexFacts.
Import Js Regex.

Lemma frame_refl gs caps : frame gs caps caps.
Proof. by intros i _. Qed.

Lemma frame_trans gs1 gs2 c1 c2 c3 :
  frame gs1 c1 c2 → frame gs2 c2 c3 → frame (gs1 ++ gs2) c1 c3.
Proof.
  intros H1 H2 i Hi. rewrite not_elem_of_app in Hi. destruct Hi as [Ha Hb].
  rewrite (H2 i Hb). by apply H1.
Qed.

Lemma frame_weaken gs gs' c c' : gs ⊆ gs' → frame gs c c' → frame gs' c c'.
Proof. intros Hsub H i Hi. apply H. intros Hin. apply Hi, Hsub, Hin. Qed.

Lemma clear_lookup gs (caps : gmap nat (list N)) i :
  i ∉ gs → clear gs caps !! i = caps !! i.
Proof.
  induction gs as [|g gs IH]; simpl; [done|].
  intros Hi. rewrite not_elem_of_cons in Hi. destruct Hi as [Hne Hi].
  rewrite lookup_delete_ne by congruence. by apply IH.
Qed.

Lemma frame_clear gs caps : frame gs caps (clear gs caps).
Proof. intros i Hi. by apply clear_lookup. Qed.

Lemma star_loop_passes body gs :
  passes 0 gs body → ∀ n, passes 0 gs (star_loop body gs n).
Proof.
  intros Hbody n. induction n as [|n IH]; intros s caps k res; simpl.
  - destruct (body s (clear gs caps) (λ _ _, None)) as [r|] eqn:Hb.
    + apply Hbody in Hb as (? & ? & ? & _); discriminate.
    + intros Hk. exists s, caps. split_and!; [done | lia | apply frame_refl].
  - destruct (body s (clear gs caps) _) as [r|] eqn:Hb.
    + intros [= ->]. apply Hbody in Hb as (s1 & c1 & Hk1 & Hlen1 & Hf1).
      destruct (length s1 <? length s)%nat eqn:Hlt; [|discriminate].
      apply IH in Hk1 as (s2 & c2 & Hk2 & Hlen2 & Hf2).
      exists s2, c2. split_and!; [done | lia |].
      intros i Hi. rewrite (Hf2 i Hi), (Hf1 i Hi). by apply clear_lookup.
    + intros Hk. exists s, caps. split_and!; [done | lia | apply frame_refl].
Qed.

(** Every pattern's matcher succeeds only through its continuation. *)
Lemma m_passes ci r : passes (minlen r) (groups r) (m ci r).
Proof.
  induction r as [|c| |neg items|r1 IH1 r2 IH2|r1 IH1 r2 IH2|r IH|r IH|n r IH|];
    intros s caps k res; simpl.
  - intros Hk. exists s, caps. split_and!; [done | lia | apply frame_refl].
  - destruct s as [|x s']; [done|]. destruct (chr_matches ci c x); [|done].
    intros Hk. exists s', caps. split_and!; [done | simpl; lia | apply frame_refl].
  - destruct s as [|x s']; [done|]. destruct (is_line_terminator x); [done|].
    intros Hk. exists s', caps. split_and!; [done | simpl; lia | apply frame_refl].
  - destruct s as [|x s']; [done|]. destruct (cls_matches ci neg items x); [|done].
    intros Hk. exists s', caps. split_and!; [done | simpl; lia | apply frame_refl].
  - intros H. apply IH1 in H as (s1 & c1 & H & Hlen1 & Hf1).
    apply IH2 in H as (s2 & c2 & H & Hlen2 & Hf2).
    exists s2, c2. split_and!; [done | lia | by eapply frame_trans].
  - destruct (m ci r1 s caps k) as [r|] eqn:H1.
    + intros [= ->]. apply IH1 in H1 as (s1 & c1 & H & Hlen1 & Hf1).
      exists s1, c1. split_and!; [done | lia |].
      eapply frame_weaken; [|done]. set_solver.
    + intros H. apply IH2 in H as (s2 & c2 & H & Hlen2 & Hf2).
      exists s2, c2. split_and!; [done | lia |].
      eapply frame_weaken; [|done]. set_solver.
  - apply star_loop_passes.
    intros s0 caps0 k0 res0 H. apply IH in H as (s1 & c1 & H & Hlen & Hf).
    exists s1, c1. split_and!; [done | lia | done].
  - destruct (m ci r s (clear (groups r) caps) _) as [r0|] eqn:H1.
    + intros [= ->]. apply IH in H1 as (s1 & c1 & H & Hlen & Hf).
      destruct (length s1 <? length s)%nat; [|done].
      exists s1, c1. split_and!; [done | lia |].
      intros i Hi. rewrite (Hf i Hi). by apply clear_lookup.
    + intros Hk. exists s, caps. split_and!; [done | lia | apply frame_refl].
  - intros H. apply IH in H as (s1 & c1 & H & Hlen & Hf).
    exists s1, (<[n := take (length s - length s1) s]> c1). split_and!; [done | lia |].
    intros i Hi. rewrite not_elem_of_cons in Hi. destruct Hi as [Hne Hi].
    rewrite lookup_insert_ne by congruence. by apply Hf.
  - destruct s; [|done]. intros Hk. exists [], caps.
    split_and!; [done | simpl; lia | apply frame_refl].
Qed.

(** *** The iteration bound of [star_loop] is never what stops it *)

Lemma star_loop_local body gs : local body → ∀ n, local (star_loop body gs n).
Proof.
  intros Hbody n. induction n as [|n IH]; intros s caps k1 k2 Hk; simpl.
  - by rewrite (Hk s caps).
  - rewrite (Hk s caps) by done.
    rewrite (Hbody s (clear gs caps) _
               (λ s' caps', if (length s' <? length s)%nat
                            then star_loop body gs n s' caps' k2 else None)); [done|].
    intros s' c' Hlen. destruct (length s' <? length s)%nat; [|done].
    apply IH. intros s2 c2 Hlen2. apply Hk. lia.
Qed.

Lemma m_local ci r : local (m ci r).
Proof.
  induction r as [|c| |neg items|r1 IH1 r2 IH2|r1 IH1 r2 IH2|r IH|r IH|n r IH|];
    intros s caps k1 k2 Hk; simpl.
  - by apply Hk.
  - destruct s as [|x s']; [done|]. destruct (chr_matches ci c x); [|done].
    apply Hk. simpl. lia.
  - destruct s as [|x s']; [done|]. destruct (is_line_terminator x); [done|].
    apply Hk. simpl. lia.
  - destruct s as [|x s']; [done|]. destruct (cls_matches ci neg items x); [|done].
    apply Hk. simpl. lia.
  - apply IH1. intros s1 c1 Hlen1. apply IH2. intros s2 c2 Hlen2. apply Hk. lia.
  - by rewrite (IH1 s caps k1 k2 Hk), (IH2 s caps k1 k2 Hk).
  - by apply star_loop_local.
  - rewrite (Hk s caps) by done.
    rewrite (IH s (clear (groups r) caps) _
               (λ s' caps', if (length s' <? length s)%nat then k2 s' caps' else None));
      [done|].
    intros s' c' Hlen. destruct (length s' <? length s)%nat; [|done]. by apply Hk.
  - apply IH. intros s' c' Hlen. by apply Hk.
  - destruct s; [|done]. by apply Hk.
Qed.

(** With [length s] iterations allowed, allowing one more changes nothing. *)
Lemma star_loop_fuel body gs n :
  local body →
  ∀ s caps k, (length s ≤ n)%nat →
    star_loop body gs (S n) s caps k = star_loop body gs n s caps k.
Proof.
  intros Hbody. induction n as [|n IH]; intros s caps k Hlen.
  - destruct s; [|simpl in Hlen; lia]. reflexivity.
  - change (star_loop body gs (S (S n)) s caps k)
      with (match body s (clear gs caps)
                    (λ s' caps', if (length s' <? length s)%nat
                                 then star_loop body gs (S n) s' caps' k else None) with
            | Some res => Some res
            | None => k s caps
            end).
    rewrite (Hbody s (clear gs caps) _
               (λ s' caps', if (length s' <? length s)%nat
                            then star_loop body gs n s' caps' k else None)); [done|].
    intros s' c' _. destruct (length s' <? length s)%nat eqn:Hlt; [|done].
    apply Nat.ltb_lt in Hlt. apply IH. lia.
Qed.

(** So [r*] is the unbounded greedy loop: any bound of at least the length
    of the input gives the same result. *)
Lemma star_any_bound ci r s caps k extra :
  star_loop (m ci r) (groups r) (length s + extra) s caps k = m ci (Star r) s caps k.
Proof.
  induction extra as [|e IH]; simpl m.
  - by rewrite Nat.add_0_r.
  - rewrite Nat.add_succ_r, star_loop_fuel; [done | apply m_local | lia].
Qed.

(** A match found by [exec] is a match at some position. *)
Lemma exec_here re s res :
  exec re s = Some res → ∃ t, match_here re t = Some res.
Proof.
  induction s as [|c s IH]; simpl.
  - destruct (match_here re []) eqn:H; [|done]. intros [= ->]. by exists [].
  - destruct (match_here re (c :: s)) eqn:H.
    + intros [= ->]. by exists (c :: s).
    + apply IH.
Qed.

(** A match at a later position is found by [exec] unless an earlier one is. *)
Lemma exec_skip re p t :
  is_Some (match_here re t) → is_Some (exec re (p ++ t)).
Proof.
  intros Ht. induction p as [|c p IH]; simpl.
  - destruct t; simpl; destruct (match_here re _); by eauto.
  - destruct (match_here re (c :: p ++ t)); by eauto.
Qed.

(** The second part of a sequence is matched by every match of the
    sequence. *)
Lemma seq_second ci r1 r2 s caps k res :
  m ci (Seq r1 r2) s caps k = Some res →
  ∃ s1 c1, m ci r2 s1 c1 k = Some res.
Proof.
  simpl. intros H. apply m_passes in H as (s1 & c1 & H & _ & _). eauto.
Qed.

Lemma keeps_final n s : n ≠ O →
  keeps n (λ s' caps', Some (<[O := take (length s - length s') s]> caps')).
Proof. intros Hn s' c res [= <-]. by rewrite lookup_insert_ne. Qed.

(** A group that ends the pattern is set by every match. *)
Lemma group_last ci n r s caps k res :
  keeps n k →
  m ci (Group n r) s caps k = Some res →
  ∃ id, res !! n = Some id ∧ (minlen r ≤ length id)%nat.
Proof.
  intros Hk H. simpl in H.
  apply m_passes in H as (s1 & c1 & H & Hlen & _).
  apply Hk in H. rewrite lookup_insert_eq in H.
  eexists. split; [done|]. rewrite length_take. lia.
Qed.

(** So is a group followed by a pattern that does not contain it. *)
Lemma group_then ci n r1 r2 s caps k res :
  n ∉ groups r2 → keeps n k →
  m ci (Seq (Group n r1) r2) s caps k = Some res →
  ∃ id, res !! n = Some id ∧ (minlen r1 ≤ length id)%nat.
Proof.
  intros Hn Hk H. simpl in H.
  apply m_passes in H as (s1 & c1 & H & Hlen & _).
  apply m_passes in H as (s2 & c2 & H & _ & Hf).
  apply Hk in H. rewrite (Hf n Hn), lookup_insert_eq in H.
  eexists. split; [done|]. rewrite length_take. lia.
Qed.

End RegexFacts.

(** ** Strings *)

Module StringFacts.
Import Js.

Lemma starts_with_refl_app (p s : list N) : starts_with p (p ++ s) = true.
Proof. induction p as [|a p IH]; simpl; [done|]. by rewrite N.eqb_refl. Qed.

(** Whether [p] starts a string is decided by its first [length p] code
    units. *)
Lemma starts_with_app_long (p x y : list N) :
  (length p ≤ length x)%nat → starts_with p (x ++ y) = starts_with p x.
Proof.
  revert x. induction p as [|a p IH]; intros x Hlen; [done|].
  destruct x as [|b x]; simpl in *; [lia|].
  rewrite IH by lia. done.
Qed.

Lemma split_go_nonempty sep k (s : list N) : split_go sep k s ≠ [].
Proof.
  revert k. induction s as [|c s IH]; intros k; simpl; [done|].
  destruct k; [|done].
  destruct (starts_with sep (c :: s)); [done|].
  specialize (IH O). by destruct (split_go sep 0 s).
Qed.

(** Stepping over the rest of a separator. *)
Lemma split_go_skip sep (a rest : list N) :
  split_go sep (length a) (a ++ rest) = split_go sep 0 rest.
Proof.
  induction a as [|y a IH]; simpl; [|done].
  destruct rest; done.
Qed.

(** A string in which the separator does not occur is not split. *)
Lemma split_go_absent sep (s : list N) :
  sep ≠ [] → includes sep s = false → split_go sep 0 s = [s].
Proof.
  intros Hsep. induction s as [|c s IH]; simpl; [done|].
  intros H. apply orb_false_iff in H as [H1 H2].
  rewrite H1, IH by done. done.
Qed.

(** The first occurrence of the separator [d ++ [x]] ends the first piece. *)
Lemma split_go_first (d : list N) x (pre rest : list N) :
  includes (d ++ [x]) (pre ++ d) = false →
  split_go (d ++ [x]) 0 (pre ++ d ++ x :: rest) = pre :: split_go (d ++ [x]) 0 rest.
Proof.
  induction pre as [|c pre IH]; intros H.
  - simpl app at 2.
    replace (d ++ x :: rest) with ((d ++ [x]) ++ rest) by by rewrite <- app_assoc.
    destruct (d ++ [x]) as [|y sep'] eqn:Hsep; [by destruct d|].
    simpl. rewrite N.eqb_refl, starts_with_refl_app. simpl.
    by rewrite split_go_skip.
  - simpl in H. apply orb_false_iff in H as [H1 H2].
    simpl.
    assert (starts_with (d ++ [x]) (c :: pre ++ d ++ x :: rest) = false) as ->.
    { change (c :: pre ++ d ++ x :: rest) with ((c :: pre) ++ d ++ x :: rest).
      rewrite app_assoc, starts_with_app_long; [done|].
      rewrite !length_app. simpl. lia. }
    by rewrite IH.
Qed.

Lemma includes_unfold (p s : list N) :
  includes p s = starts_with p s || match s with [] => false | _ :: s' => includes p s' end.
Proof. by destruct s. Qed.

Lemma includes_app (p a b : list N) : includes p (a ++ p ++ b) = true.
Proof.
  induction a as [|c a IH].
  - simpl app. by rewrite includes_unfold, starts_with_refl_app.
  - simpl. rewrite IH. apply orb_true_r.
Qed.

(** What follows the first occurrence of the separator, up to the next one,
    is the second piece. *)
Lemma split_second (d : list N) x (pre rest : list N) :
  includes (d ++ [x]) (pre ++ d) = false →
  includes (d ++ [x]) rest = false →
  split (d ++ [x]) (pre ++ d ++ x :: rest) !! 1%nat = Some rest.
Proof.
  intros Hpre Hrest. unfold split.
  destruct (d ++ [x]) as [|y sep] eqn:Hsep; [by destruct d|]. rewrite <- Hsep in *.
  rewrite split_go_first by done.
  rewrite split_go_absent; [done | by rewrite Hsep | done].
Qed.


(** Splitting at a single code unit. *)
Lemma split_char_cons d c (s : list N) :
  split_go [d] 0 (c :: s) =
  if d =? c then [] :: split_go [d] 0 s
  else match split_go [d] 0 s with
       | seg :: rest => (c :: seg) :: rest
       | [] => [[c]]
       end.
Proof. simpl. by rewrite andb_true_r. Qed.

Lemma split_char_absent d (s : list N) : d ∉ s → split_go [d] 0 s = [s].
Proof.
  induction s as [|c s IH]; [done|].
  intros H. rewrite not_elem_of_cons in H. destruct H as [Hne H].
  rewrite split_char_cons, IH by done.
  by apply N.eqb_neq in Hne as ->.
Qed.

Lemma split_char_first d (a b : list N) :
  d ∉ a → split_go [d] 0 (a ++ d :: b) = a :: split_go [d] 0 b.
Proof.
  induction a as [|c a IH]; intros H.
  - simpl app. by rewrite split_char_cons, N.eqb_refl.
  - rewrite not_elem_of_cons in H. destruct H as [Hne H].
    simpl app. rewrite split_char_cons, IH by done.
    by apply N.eqb_neq in Hne as ->.
Qed.

(** Splitting distributes over a separator. *)
Lemma split_char_app d (a b : list N) :
  split_go [d] 0 (a ++ d :: b) = split_go [d] 0 a ++ split_go [d] 0 b.
Proof.
  induction a as [|c a IH].
  - simpl app at 1. by rewrite split_char_cons, N.eqb_refl.
  - simpl app at 1. rewrite !split_char_cons, IH.
    destruct (d =? c); [done|].
    pose proof (split_go_nonempty [d] 0 a).
    by destruct (split_go [d] 0 a).
Qed.

(** The last piece is what follows the last separator. *)
Lemma split_char_last d (a b : list N) :
  d ∉ b → last (split_go [d] 0 (a ++ d :: b)) = Some b.
Proof.
  intros Hb. rewrite split_char_app, (split_char_absent d b) by done.
  apply last_snoc.
Qed.

(** Joining the pieces with the separator gives the string back. *)
Lemma join_split_char d (s : list N) : join [d] (split_go [d] 0 s) = s.
Proof.
  induction s as [|c s IH]; [done|].
  rewrite split_char_cons.
  pose proof (split_go_nonempty [d] 0 s) as Hne.
  destruct (d =? c) eqn:Hd.
  - apply N.eqb_eq in Hd as <-.
    destruct (split_go [d] 0 s) as [|seg rest]; [done|].
    simpl in *. by rewrite IH.
  - destruct (split_go [d] 0 s) as [|seg rest]; [done|].
    destruct rest; simpl in *; by rewrite <- IH.
Qed.

(** A string without a percent sign decodes to itself. *)
Lemma Decode_plain (s : list N) : 37 ∉ s → Uri.Decode 0 s = Some s.
Proof.
  induction s as [|c s IH]; [done|].
  intros H. rewrite not_elem_of_cons in H. destruct H as [Hne H].
  simpl. apply not_eq_sym, N.eqb_neq in Hne as ->.
  by rewrite IH.
Qed.

(** The decimal form of a number consists of digits. *)
Lemma string_of_N_digits n : Forall (λ c, 48 ≤ c ≤ 57) (string_of_N n).
Proof.
  unfold string_of_N. generalize (N.to_uint n). intros d.
  induction d; simpl; constructor; try lia; done.
Qed.

Lemma rev_app_cons (a : list N) c (b : list N) :
  rev (a ++ c :: b) = rev b ++ c :: rev a.
Proof. rewrite rev_app_distr. simpl. by rewrite <- app_assoc. Qed.

(** [trimStart] stops at the first code unit that is not white space. *)
Lemma trimStart_stop (l : list N) x (r : list N) :
  is_space x = false →
  ∃ l', trimStart (l ++ x :: r) = l' ++ x :: r ∧ l' `suffix_of` l.
Proof.
  intros Hx. induction l as [|c l IH]; simpl.
  - rewrite Hx. by exists [].
  - destruct (is_space c).
    + destruct IH as (l' & -> & Hl'). exists l'. split; [done|].
      by apply suffix_cons_r.
    + by exists (c :: l).
Qed.

Lemma trimStart_blank (s : list N) :
  Forall (λ c, is_space c = true) s → trimStart s = [].
Proof. induction 1 as [|c s Hc _ IH]; simpl; [done|]. by rewrite Hc. Qed.

Lemma trim_blank (s : list N) :
  Forall (λ c, is_space c = true) s → trim s = [].
Proof. intros H. unfold trim. by rewrite (trimStart_blank s H). Qed.

(** The code units of a sanitized name: the kept ones and the underscore. *)
Lemma sanitize_spec (name : list N) :
  Storage.sanitize name = map (λ c, if Spec.kept c then c else 95) name.
Proof.
  unfold Storage.sanitize. apply map_ext. intros c.
  unfold Regex.cls_matches, Regex.in_class, Storage.unsafe_class, Spec.kept.
  cbn -[N.leb N.eqb].
  repeat match goal with
         | |- context [?a <=? ?b] => destruct (N.leb_spec a b)
         | |- context [?a =? ?b] => destruct (N.eqb_spec a b)
         end; cbn -[N.leb N.eqb]; try done; lia.
Qed.

Lemma sanitize_safe (name : list N) c :
  c ∈ Storage.sanitize name → c ≠ 47 ∧ c ≠ 37.
Proof.
  rewrite sanitize_spec, list_elem_of_fmap. intros (x & -> & _).
  unfold Spec.kept.
  repeat match goal with
         | |- context [?a <=? ?b] => destruct (N.leb_spec a b)
         | |- context [?a =? ?b] => destruct (N.eqb_spec a b)
         end; simpl; lia.
Qed.

End StringFacts.

(** ** [parseVideoUrl] *)

Module VideoFacts.
Import Js Regex RegexFacts StringFacts VideoUtils.

(** A match of the YouTube pattern carries an identifier of at least eleven
    code units in group 1. *)
Lemma youtube_match_id s res :
  exec youtubeRegex s = Some res →
  ∃ id, res !! 1%nat = Some id ∧ (11 ≤ length id)%nat.
Proof.
  intros H. apply exec_here in H as [t H].
  unfold match_here, youtubeRegex in H. cbn [pattern ignoreCase] in H.
  apply seq_second in H as (s1 & c1 & H).
  apply group_last in H; [done | by apply keeps_final].
Qed.

(** A match of the Vimeo pattern carries a non-empty identifier in group 1. *)
Lemma vimeo_match_id s res :
  exec vimeoRegex s = Some res →
  ∃ id, res !! 1%nat = Some id ∧ (1 ≤ length id)%nat.
Proof.
  intros H. apply exec_here in H as [t H].
  unfold match_here, vimeoRegex in H. cbn [pattern ignoreCase] in H.
  apply seq_second in H as (s1 & c1 & H).
  apply seq_second in H as (s2 & c2 & H).
  apply group_then in H; [done | simpl; set_solver | by apply keeps_final].
Qed.

(** *** The direct-file pattern *)

Lemma alt_left ci a b s caps k :
  is_Some (m ci a s caps k) → is_Some (m ci (Alt a b) s caps k).
Proof. simpl. by intros [res ->]. Qed.

Lemma alt_right ci a b s caps k :
  is_Some (m ci b s caps k) → is_Some (m ci (Alt a b) s caps k).
Proof. simpl. destruct (m ci a s caps k); by eauto. Qed.

(** A literal matches a text with the same canonical form. *)
Lemma m_Lit ci l e q caps k :
  map (canon ci) e = map (canon ci) l →
  m ci (Lit l) (e ++ q) caps k = k q caps.
Proof.
  revert e. induction l as [|a l IH]; intros [|x e] H; try done.
  injection H as Hx He. simpl. unfold chr_matches.
  rewrite Hx, N.eqb_refl. by apply IH.
Qed.

(** ASCII lower-casing and canonicalization identify the same letters. *)
Lemma lower_canon x y : Spec.lower x = Spec.lower y → canon true x = canon true y.
Proof.
  unfold Spec.lower, canon. simpl.
  repeat match goal with
         | |- context [?a <=? ?b] => destruct (N.leb_spec a b)
         end; simpl; lia.
Qed.

Lemma map_lower_canon e l :
  map Spec.lower e = map Spec.lower l → map (canon true) e = map (canon true) l.
Proof.
  revert l. induction e as [|x e IH]; intros [|y l] H; try done.
  injection H as Hx He. simpl. f_equal; [by apply lower_canon | by apply IH].
Qed.

(** The alternatives of the pattern accept every video extension. *)
Lemma extension_alternatives e q caps k :
  Spec.video_extension e →
  is_Some (k q caps) →
  is_Some (m true (Alt (Lit (lit "mp4"))
                     (Alt (Lit (lit "webm")) (Alt (Lit (lit "ogg")) (Lit (lit "mov")))))
             (e ++ q) caps k).
Proof.
  unfold Spec.video_extension. intros He Hk.
  rewrite !elem_of_cons, elem_of_nil in He.
  destruct He as [He|[He|[He|[He|[]]]]].
  - apply alt_left. by rewrite m_Lit by by apply map_lower_canon.
  - apply alt_right, alt_left. by rewrite m_Lit by by apply map_lower_canon.
  - do 2 apply alt_right. apply alt_left. by rewrite m_Lit by by apply map_lower_canon.
  - do 3 apply alt_right. by rewrite m_Lit by by apply map_lower_canon.
Qed.

(** A greedy [.*] runs to the end of a line. *)
Lemma star_line body q n caps k :
  (∀ x s c k', is_line_terminator x = false → body (x :: s) c k' = k' s c) →
  (∀ c k', body [] c k' = None) →
  Spec.one_line q → (length q ≤ n)%nat →
  is_Some (k [] caps) →
  is_Some (star_loop body [] n q caps k).
Proof.
  intros Hcons Hnil Hq. revert n.
  induction Hq as [|x q Hx Hq IH]; intros n Hn Hk.
  - destruct n; simpl; by rewrite Hnil.
  - destruct n as [|n]; simpl in Hn; [lia|].
    simpl. rewrite Hcons by done.
    assert ((length q <? S (length q))%nat = true) as -> by (apply Nat.ltb_lt; lia).
    destruct (IH n ltac:(lia) Hk) as [res ->]. by eauto.
Qed.

Lemma star_any_line ci q caps k :
  Spec.one_line q →
  is_Some (k [] caps) →
  is_Some (m ci (Star Any) q caps k).
Proof.
  intros Hq Hk. apply star_line; [| done | done | done | done].
  intros x s c k' Hx. simpl. by rewrite Hx.
Qed.

(** The optional query string and the end of the input. *)
Lemma query_tail q caps k :
  Spec.query q → Spec.one_line q →
  (∀ c, is_Some (k [] c)) →
  is_Some (m true (Seq (Opt (Group 2 (Seq (Chr (code "?")) (Star Any)))) Eos) q caps k).
Proof.
  intros [->|[q' ->]] Hline Hk.
  - simpl. apply Hk.
  - apply Forall_cons in Hline as [_ Hline].
    change (m true (Seq (Opt (Group 2 (Seq (Chr (code "?")) (Star Any)))) Eos)
              (code "?" :: q') caps k)
      with (match m true (Star Any) q' (delete 2%nat caps)
                    (λ s' caps',
                       if (length s' <? S (length q'))%nat
                       then m true Eos s'
                              (<[2%nat := take (S (length q') - length s') (code "?" :: q')]> caps') k
                       else None) with
            | Some res => Some res
            | None => m true Eos (code "?" :: q') caps k
            end).
    destruct (star_any_line true q' (delete 2%nat caps)
                (λ s' caps',
                   if (length s' <? S (length q'))%nat
                   then m true Eos s'
                          (<[2%nat := take (S (length q') - length s') (code "?" :: q')]> caps') k
                   else None)) as [res ->]; [done | apply Hk | by eauto].
Qed.

(** The pattern matches at the dot of an extension that ends the input or is
    followed by a one-line query string. *)
Lemma extension_here e q :
  Spec.video_extension e → Spec.query q → Spec.one_line q →
  is_Some (match_here videoExtensions (code "." :: e ++ q)).
Proof.
  intros He Hq Hline. unfold match_here, videoExtensions. cbn [pattern ignoreCase].
  change (code ".") with 46.
  match goal with
  | |- is_Some (m true (Seq (Chr 46) (Seq (Group 1 ?alts) ?tail)) ?s ∅ ?k) =>
      change (m true (Seq (Chr 46) (Seq (Group 1 alts) tail)) s ∅ k)
        with (m true alts (e ++ q) ∅
                (λ s' caps',
                   m true tail s'
                     (<[1%nat := take (length (e ++ q) - length s') (e ++ q)]> caps') k))
  end.
  apply extension_alternatives; [done|].
  apply query_tail; [done | done |]. intros c. simpl. by eauto.
Qed.

(** A video extension ends with a code unit that is not white space. *)
Lemma extension_last e :
  Spec.video_extension e → ∃ e0 x, e = e0 ++ [x] ∧ is_space x = false.
Proof.
  unfold Spec.video_extension. intros He.
  rewrite !elem_of_cons, elem_of_nil in He.
  assert (∀ x y, Spec.lower x = y → x = y ∨ x + 32 = y) as Hlow.
  { intros x y <-. unfold Spec.lower. destruct (_ && _); by auto. }
  assert (∀ x y, Spec.lower x = y → is_space y = false → is_space (y - 32) = false →
                 is_space x = false) as Hns.
  { intros x y Hx H1 H2. apply Hlow in Hx as [->|Hx]; [done|].
    by replace x with (y - 32) by lia. }
  destruct He as [He|[He|[He|[He|[]]]]].
  - destruct e as [|x1 [|x2 [|x3 [|? ?]]]]; try done. injection He as H1 H2 H3.
    exists [x1; x2], x3. split; [done|]. by apply (Hns _ _ H3).
  - destruct e as [|x1 [|x2 [|x3 [|x4 [|? ?]]]]]; try done. injection He as H1 H2 H3 H4.
    exists [x1; x2; x3], x4. split; [done|]. by apply (Hns _ _ H4).
  - destruct e as [|x1 [|x2 [|x3 [|? ?]]]]; try done. injection He as H1 H2 H3.
    exists [x1; x2], x3. split; [done|]. by apply (Hns _ _ H3).
  - destruct e as [|x1 [|x2 [|x3 [|? ?]]]]; try done. injection He as H1 H2 H3.
    exists [x1; x2], x3. split; [done|]. by apply (Hns _ _ H3).
Qed.

(** Trimming keeps a video extension and its query string in place. *)
Lemma trim_extension p e q :
  Spec.video_extension e → Spec.query q → Spec.one_line q →
  ∃ p' q', trim (p ++ code "." :: e ++ q) = p' ++ code "." :: e ++ q'
           ∧ Spec.query q' ∧ Spec.one_line q'.
Proof.
  intros He Hq Hline. unfold trim.
  destruct (trimStart_stop p (code ".") (e ++ q)) as (p' & -> & _); [done|].
  exists p'. destruct Hq as [->|[q1 ->]].
  - exists []. rewrite app_nil_r.
    apply extension_last in He as (e0 & x & -> & Hx).
    replace (p' ++ code "." :: e0 ++ [x]) with ((p' ++ code "." :: e0) ++ [x])
      by by rewrite <- app_assoc.
    rewrite rev_unit. simpl. rewrite Hx. simpl. rewrite rev_involutive.
    split_and!; [done | by left | done].
  - replace (p' ++ code "." :: e ++ code "?" :: q1)
      with ((p' ++ code "." :: e) ++ code "?" :: q1) by by rewrite <- app_assoc.
    rewrite rev_app_cons.
    destruct (trimStart_stop (rev q1) (code "?") (rev (p' ++ code "." :: e)))
      as (l' & -> & Hsuf); [done|].
    exists (code "?" :: rev l').
    rewrite rev_app_cons, rev_involutive, <- app_assoc.
    split_and!; [done | right; by eexists |].
    apply Forall_cons in Hline as [H1 Hline]. constructor; [done|].
    apply Forall_forall. intros y Hy.
    rewrite Forall_forall in Hline. apply Hline.
    apply list_elem_of_In, in_rev. destruct Hsuf as [l0 ->].
    apply in_or_app. right. by apply in_rev, list_elem_of_In.
Qed.

(** *** The classifier on the URL shapes of the specification *)

Example watch_url :
  parseVideoUrl (lit "https://www.youtube.com/watch?v=dQw4w9WgXcQ&t=42s") =
    {| type := youtube;
       url := lit "https://www.youtube.com/watch?v=dQw4w9WgXcQ&t=42s";
       embedUrl := Some (lit "https://www.youtube.com/embed/dQw4w9WgXcQ?rel=0&modestbranding=1");
       videoId := Some (lit "dQw4w9WgXcQ") |}.
Proof. vm_compute. reflexivity. Qed.

Example embed_url :
  videoId (parseVideoUrl (lit "  https://www.youtube.com/embed/dQw4w9WgXcQ  "))
  = Some (lit "dQw4w9WgXcQ").
Proof. vm_compute. reflexivity. Qed.

Example vimeo_channel_url :
  videoId (parseVideoUrl (lit "https://vimeo.com/channels/staffpicks/76979871"))
  = Some (lit "76979871").
Proof. vm_compute. reflexivity. Qed.

Example direct_file_url :
  parseVideoUrl (lit "https://cdn.example.com/clip.mp4?x=1") =
    {| type := direct; url := lit "https://cdn.example.com/clip.mp4?x=1";
       embedUrl := None; videoId := None |}.
Proof. vm_compute. reflexivity. Qed.

Example upper_case_extension :
  type (parseVideoUrl (lit "https://cdn.example.com/CLIP.MoV")) = direct.
Proof. vm_compute. reflexivity. Qed.

Example not_a_video :
  isValidVideoUrl (lit "https://example.com/watch.mp3") = false.
Proof. vm_compute. reflexivity. Qed.

(** The four shapes of a classification. *)
Lemma parseVideoUrl_cases s :
  (∃ id, (11 ≤ length id)%nat ∧
     parseVideoUrl s =
       {| type := youtube; url := trim s;
          embedUrl := Some (lit "https://www.youtube.com/embed/" ++ id
                              ++ lit "?rel=0&modestbranding=1");
          videoId := Some id |})
  ∨ (∃ id, (1 ≤ length id)%nat ∧
       parseVideoUrl s =
         {| type := vimeo; url := trim s;
            embedUrl := Some (lit "https://player.vimeo.com/video/" ++ id);
            videoId := Some id |})
  ∨ parseVideoUrl s =
      {| type := direct; url := trim s; embedUrl := None; videoId := None |}
  ∨ parseVideoUrl s = Spec.unrecognized (trim s).
Proof.
  unfold parseVideoUrl. destruct s as [|c s]; [by right; right; right|].
  generalize (trim (c :: s)). intros u.
  destruct (exec youtubeRegex u) as [res|] eqn:Hy.
  { left. apply youtube_match_id in Hy as (id & -> & Hlen). by exists id. }
  destruct (exec vimeoRegex u) as [res|] eqn:Hv.
  { right; left. apply vimeo_match_id in Hv as (id & -> & Hlen). by exists id. }
  destruct (test videoExtensions u); by auto.
Qed.

End VideoFacts.


(** ** The classifier *)

Module ClassifierClaims.
Import Js Regex RegexFacts VideoUtils VideoFacts StringFacts Spec.

(** C6.  The short YouTube link of the specification is classified as the
    YouTube variant with the identifier [dQw4w9WgXcQ] and the embed URL
    built from it, and the Vimeo link as the Vimeo variant with the
    identifier [76979871] and its player URL. *)
Theorem hosted_examples :
  parseVideoUrl (lit "https://youtu.be/dQw4w9WgXcQ") =
    {| type := youtube;
       url := lit "https://youtu.be/dQw4w9WgXcQ";
       embedUrl := Some (lit "https://www.youtube.com/embed/dQw4w9WgXcQ?rel=0&modestbranding=1");
       videoId := Some (lit "dQw4w9WgXcQ") |}
  ∧ parseVideoUrl (lit "https://vimeo.com/76979871") =
    {| type := vimeo;
       url := lit "https://vimeo.com/76979871";
       embedUrl := Some (lit "https://player.vimeo.com/video/76979871");
       videoId := Some (lit "76979871") |}.
Proof. split; vm_compute; reflexivity. Qed.

(** C7.  For every input string the classification carries an embed URL
    exactly when its type is a hosted one, and a video identifier exactly
    when its type is a hosted one (the identifier is then the text the
    pattern extracted); the direct-file and unrecognized variants carry
    neither. *)
Theorem video_info_shape (s : list N) :
  let v := parseVideoUrl s in
  (is_Some (embedUrl v) ↔ hosted (type v))
  ∧ (is_Some (videoId v) ↔ hosted (type v))
  ∧ (type v = direct ∨ type v = unknown → embedUrl v = None ∧ videoId v = None).
Proof.
  unfold hosted.
  destruct (parseVideoUrl_cases s) as [(id & _ & ->)|[(id & _ & ->)|[->| ->]]]; simpl;
    (split_and!; [split | split | ]);
    try (intros [x Hx]; discriminate); try (intros [?|?]; discriminate);
    by eauto.
Qed.

Lemma video_info_shape_witness :
  embedUrl (parseVideoUrl (lit "https://cdn.example.com/clip.mp4")) = None
  ∧ videoId (parseVideoUrl (lit "https://cdn.example.com/clip.mp4")) = None.
Proof.
  apply (video_info_shape (lit "https://cdn.example.com/clip.mp4")).
  left. vm_compute. reflexivity.
Defined.

(** C10.  The thumbnail of a classification is the [maxresdefault.jpg] URL
    of its identifier when the classification is the YouTube variant, which
    always carries an identifier, and is absent for the Vimeo, direct-file
    and unrecognized variants. *)
Theorem thumbnail_rule (s : list N) :
  let v := parseVideoUrl s in
  match type v with
  | youtube =>
      ∃ id, videoId v = Some id
            ∧ getVideoThumbnail v =
                Some (lit "https://img.youtube.com/vi/" ++ id ++ lit "/maxresdefault.jpg")
  | vimeo | direct | unknown => getVideoThumbnail v = None
  end.
Proof.
  destruct (parseVideoUrl_cases s) as [(id & Hlen & ->)|[(id & _ & ->)|[->| ->]]];
    simpl; try done.
  exists id. split; [done|]. unfold getVideoThumbnail. simpl.
  destruct id; [simpl in Hlen; lia | done].
Qed.

(** C8.  The classifier is a total function: it has no failing outcome.  A
    value that is not a string, the empty string and every string of white
    space only are classified as unrecognized with the empty URL, and a
    string whose trimmed form matches none of the three patterns is
    classified as unrecognized with the trimmed string as URL. *)
Theorem classifier_total_unrecognized :
  parseVideoUrl_value JNotString = unrecognized []
  ∧ parseVideoUrl_value (JString []) = unrecognized []
  ∧ (∀ s, blank s → parseVideoUrl_value (JString s) = unrecognized [])
  ∧ (∀ s,
       exec youtubeRegex (trim s) = None →
       exec vimeoRegex (trim s) = None →
       test videoExtensions (trim s) = false →
       parseVideoUrl_value (JString s) = unrecognized (trim s)).
Proof.
  split_and!; [done | done | |].
  - intros s Hs. simpl. unfold parseVideoUrl.
    destruct s as [|c s]; [done|]. by rewrite (trim_blank _ Hs).
  - intros s Hy Hv He. simpl. unfold parseVideoUrl.
    destruct s as [|c s]; [done|]. by rewrite Hy, Hv, He.
Qed.

Lemma classifier_total_unrecognized_witness :
  parseVideoUrl_value (JString (lit "   ")) = unrecognized []
  ∧ parseVideoUrl_value (JString (lit "not a url")) = unrecognized (lit "not a url").
Proof.
  destruct classifier_total_unrecognized as (_ & _ & Hblank & Hnone).
  split.
  - apply Hblank. repeat constructor.
  - apply (Hnone (lit "not a url")); vm_compute; reflexivity.
Defined.

(** C2, as the code has it.  A string that ends with a dot and one of the
    extensions mp4, webm, ogg, mov in any mix of cases, optionally followed
    by a question mark and a query without line terminators, is classified as
    a direct file whenever its trimmed form matches neither the YouTube nor
    the Vimeo pattern, which are tried first. *)
Theorem direct_file_unless_hosted (p e q : list N) :
  video_extension e → query q → one_line q →
  exec youtubeRegex (trim (p ++ code "." :: e ++ q)) = None →
  exec vimeoRegex (trim (p ++ code "." :: e ++ q)) = None →
  parseVideoUrl (p ++ code "." :: e ++ q) =
    {| type := direct; url := trim (p ++ code "." :: e ++ q);
       embedUrl := None; videoId := None |}.
Proof.
  intros He Hq Hline Hy Hv. unfold parseVideoUrl.
  destruct (p ++ code "." :: e ++ q) as [|c s] eqn:Hs; [by destruct p|].
  rewrite <- Hs in *. rewrite Hy, Hv.
  destruct (trim_extension p e q He Hq Hline) as (p' & q' & -> & Hq' & Hline').
  unfold test.
  destruct (exec_skip videoExtensions p' (code "." :: e ++ q')) as [res ->]; [|done].
  by apply extension_here.
Qed.

Lemma direct_file_unless_hosted_witness :
  parseVideoUrl (lit "https://cdn.example.com/clip" ++ code "." :: lit "mp4" ++ lit "?x=1") =
    {| type := direct;
       url := trim (lit "https://cdn.example.com/clip" ++ code "." :: lit "mp4" ++ lit "?x=1");
       embedUrl := None; videoId := None |}.
Proof.
  apply direct_file_unless_hosted.
  - unfold video_extension. vm_compute. constructor.
  - right. by eexists.
  - repeat constructor.
  - vm_compute. reflexivity.
  - vm_compute. reflexivity.
Defined.

(** C2 as stated fails: a Vimeo link that ends with [.mp4] is classified as
    the Vimeo variant, and a file URL whose query string contains a line
    feed is not recognized. *)
Lemma extension_does_not_decide :
  video_extension (lit "mp4") ∧ query [] ∧ query (code "?" :: [97; 10; 98])
  ∧ type (parseVideoUrl (lit "https://vimeo.com/76979871/download" ++ code "." :: lit "mp4" ++ []))
      = vimeo
  ∧ type (parseVideoUrl (lit "https://cdn.example.com/clip" ++ code "." :: lit "mp4"
                           ++ code "?" :: [97; 10; 98]))
      = unknown.
Proof.
  split_and!.
  - unfold video_extension. vm_compute. constructor.
  - by left.
  - right. by eexists.
  - vm_compute. reflexivity.
  - vm_compute. reflexivity.
Qed.

End ClassifierClaims.

(** ** Storage keys and display names *)

Module StorageClaims.
Import Js Regex Storage StringFacts Spec.

(** C1 as stated fails for the managed back end: the path it builds for a
    file carries no folder; the destination only selects the bucket. *)
Lemma managed_path_has_no_folder :
  requests (events (uploadFileToSupabase (λ _ path, path) 1700000000000
                      (inr (lit "1700000000000-my_photo.png")) Samples.photo
                      product_images true))
    = [SupabaseUpload product_images (lit "1700000000000-my_photo.png") Samples.photo]
  ∧ lit "1700000000000-my_photo.png"
    ≠ bucket_name product_images ++ lit "/" ++ string_of_N 1700000000000 ++ lit "-"
        ++ sanitize (name Samples.photo).
Proof. split; [vm_compute; reflexivity | vm_compute; discriminate]. Qed.

(** C1, as the code has it.  The raw object-store back end, when it is
    configured, sends the file under the key
    [folder/timestamp-sanitizedName]; the managed back end sends it to the
    bucket named by its destination under the path
    [timestamp-sanitizedName].  Sanitizing replaces every code unit that is
    not a Latin letter, a digit, a dot or a dash with an underscore and
    leaves the others as they are. *)
Theorem upload_key_shape (getPublicUrl : Bucket → list N → list N) (cfg : S3Config)
    (timestamp : N) (file : File) (folder : list N) (bucket : Bucket)
    (s3_reply : option AwsError) (supabase_reply : list N + list N) (onProgress : bool) :
  requests (events (uploadFileToS3 cfg timestamp s3_reply file folder onProgress))
    = (if isS3Configured cfg
       then [S3PutObject (Storage.bucket cfg)
               (folder ++ lit "/" ++ string_of_N timestamp ++ lit "-" ++ sanitize (name file))
               file]
       else [])
  ∧ requests (events (uploadFileToSupabase getPublicUrl timestamp supabase_reply file
                        bucket onProgress))
    = [SupabaseUpload bucket
         (string_of_N timestamp ++ lit "-" ++ sanitize (name file)) file]
  ∧ sanitize (name file) = map (λ c, if kept c then c else 95) (name file).
Proof.
  split_and!.
  - unfold uploadFileToS3, isS3Configured.
    destruct (is_empty (Storage.bucket cfg)); [by rewrite andb_false_r|].
    destruct (is_empty (region cfg)); [done|].
    destruct (is_empty (accessKeyId cfg)); [done|].
    destruct (is_empty (secretAccessKey cfg)); [done|].
    destruct s3_reply, onProgress; done.
  - unfold uploadFileToSupabase. destruct supabase_reply, onProgress; done.
  - apply sanitize_spec.
Qed.

(** The display name of a URL that ends with a slash and an upload name. *)
Lemma getFileName_upload (x : list N) (timestamp : N) (name : list N) :
  MediaManager.getFileName (x ++ lit "/" ++ string_of_N timestamp ++ lit "-" ++ sanitize name)
  = Some (sanitize name).
Proof.
  pose proof (string_of_N_digits timestamp) as Hd. rewrite Forall_forall in Hd.
  assert (∀ d, d ∉ [48; 49; 50; 51; 52; 53; 54; 55; 56; 57] → d ∉ string_of_N timestamp)
    as Hdig.
  { intros d Hd' Hin. apply Hd in Hin. apply Hd'.
    rewrite !elem_of_cons. lia. }
  assert (∀ d, d = 47 ∨ d = 37 → d ∉ string_of_N timestamp ++ 45 :: sanitize name) as Hno.
  { intros d Hd' Hin. apply elem_of_app in Hin as [Hin|Hin].
    - revert Hin. apply Hdig. rewrite !elem_of_cons, elem_of_nil. lia.
    - apply elem_of_cons in Hin as [->|Hin]; [lia|].
      apply sanitize_safe in Hin. lia. }
  unfold MediaManager.getFileName, Uri.decodeURIComponent.
  change (lit "/") with [47]. change (lit "-") with [45]. simpl split. simpl app.
  rewrite split_char_last by (apply Hno; by left). simpl default.
  rewrite Decode_plain by (apply Hno; by right). simpl fmap.
  rewrite split_char_first by (apply Hdig; rewrite !elem_of_cons, elem_of_nil; lia).
  cbn [skipn]. rewrite drop_0. by rewrite join_split_char.
Qed.

(** C3.  For every file name, destination folder and timestamp, the display
    name derived from the public URL of the uploaded object is the sanitized
    file name: for the URL the raw object-store back end returns for its key,
    on the CloudFront domain or on the bucket's host, and for every URL that
    ends with a slash and the path the managed back end builds. *)
Theorem display_name_round_trip (cfg : S3Config) (folder : list N) (timestamp : N)
    (file : File) (base : list N) :
  MediaManager.getFileName (s3_url cfg (s3_key folder timestamp file))
    = Some (sanitize (name file))
  ∧ MediaManager.getFileName (base ++ lit "/" ++ supabase_path timestamp file)
    = Some (sanitize (name file)).
Proof.
  split.
  - unfold s3_url, s3_key. destruct (is_empty (cloudFrontDomain cfg)).
    + rewrite <- (getFileName_upload
                   (lit "https://" ++ Storage.bucket cfg ++ lit ".s3." ++ region cfg
                      ++ lit ".amazonaws.com/" ++ folder) timestamp (name file)).
      f_equal. by rewrite <- !app_assoc.
    + rewrite <- (getFileName_upload
                   (lit "https://" ++ cloudFrontDomain cfg ++ lit "/" ++ folder)
                   timestamp (name file)).
      f_equal. by rewrite <- !app_assoc.
  - apply getFileName_upload.
Qed.





(** Without a CloudFront domain every URL "contains" it, and the key read
    off the URL that [uploadFileToS3] returned is then the empty piece
    between the two slashes of [https://]. *)
Lemma delete_without_cdn_domain (cfg : S3Config) (key : list N) :
  cloudFrontDomain cfg = [] →
  s3_key_of_url cfg (s3_url cfg key) = Some [].
Proof.
  intros Hcdn. unfold s3_key_of_url, s3_url. rewrite Hcdn. simpl is_empty. cbv iota.
  rewrite includes_unfold. simpl starts_with. simpl orb. cbv iota.
  match goal with
  | |- split _ (lit "https://" ++ ?rest) !! _ = _ =>
      change (split_go [47] 0 (lit "https:" ++ 47 :: 47 :: rest) !! 1%nat = Some [])
  end.
  rewrite split_char_first.
  - by rewrite split_char_cons, N.eqb_refl.
  - intros H. apply list_elem_of_In in H. vm_compute in H. intuition discriminate.
Qed.


End StorageClaims.

(** ** Upload validation and gallery removal *)

Module ComponentClaims.
Import Js Storage StringFacts Spec.

(** C5.  A selected file whose size is at most [maxSizeMB * 1024 * 1024]
    bytes is handed to the storage back end: the handler issues exactly one
    upload request, for that file.  A larger file is rejected with the
    size message as the component's error, and the handler issues no request
    and makes no other call. *)
Theorem upload_size_boundary (getPublicUrl : Bucket → list N → list N) (bucket : Bucket)
    (maxSizeMB : Z) (timestamp : N) (reply : list N + list N) (st : FileUpload.state)
    (file : File) :
  ((Z.of_N (size file) ≤ maxSizeMB * 1024 * 1024)%Z →
     FileUpload.storage_requests
       (FileUpload.handleFileSelect getPublicUrl bucket maxSizeMB timestamp reply st
          (Some file)).2
     = [SupabaseUpload bucket (supabase_path timestamp file) file])
  ∧ ((Z.of_N (size file) > maxSizeMB * 1024 * 1024)%Z →
       FileUpload.handleFileSelect getPublicUrl bucket maxSizeMB timestamp reply st (Some file)
       = ({| FileUpload.uploading := FileUpload.uploading st;
             FileUpload.progress := FileUpload.progress st;
             FileUpload.error :=
               lit "File size must be less than " ++ string_of_Z maxSizeMB ++ lit "MB";
             FileUpload.success := FileUpload.success st |}, [])).
Proof.
  unfold FileUpload.handleFileSelect. split; intros Hsize.
  - destruct (Z.gtb_spec (Z.of_N (size file)) (maxSizeMB * 1024 * 1024)) as [Hgt|_]; [lia|].
    unfold uploadFileToSupabase. destruct reply; reflexivity.
  - destruct (Z.gtb_spec (Z.of_N (size file)) (maxSizeMB * 1024 * 1024)) as [_|Hle]; [done|lia].
Qed.

Lemma upload_size_boundary_witness :
  FileUpload.storage_requests
    (FileUpload.handleFileSelect (λ _ path, path) product_videos 50 1700000000000
       (inr (lit "1700000000000-clip.mp4")) Samples.idle (Some Samples.clip_50MB)).2
  = [SupabaseUpload product_videos (supabase_path 1700000000000 Samples.clip_50MB)
       Samples.clip_50MB]
  ∧ FileUpload.handleFileSelect (λ _ path, path) product_videos 50 1700000000000
      (inr (lit "1700000000000-clip.mp4")) Samples.idle (Some Samples.clip_over)
    = ({| FileUpload.uploading := false; FileUpload.progress := 0;
          FileUpload.error := lit "File size must be less than 50MB";
          FileUpload.success := false |}, []).
Proof.
  split.
  - apply (upload_size_boundary (λ _ path, path) product_videos 50 1700000000000
             (inr (lit "1700000000000-clip.mp4")) Samples.idle Samples.clip_50MB).
    simpl. lia.
  - apply (upload_size_boundary (λ _ path, path) product_videos 50 1700000000000
             (inr (lit "1700000000000-clip.mp4")) Samples.idle Samples.clip_over).
    simpl. lia.
Defined.






End ComponentClaims.

(** * Further properties *)

(** ** The matcher is sound for the texts of a pattern *)

Module LanguageFacts.
Import Js Regex RegexFacts StringFacts Language.

Lemma star_loop_consumes ci r body gs :
  consumes (lang ci r) body → ∀ n, consumes (lang ci (Star r)) (star_loop body gs n).
Proof.
  intros Hbody n. induction n as [|n IH]; intros s caps k res; simpl.
  - destruct (body s (clear gs caps) (λ _ _, None)) as [r0|] eqn:Hb.
    + apply Hbody in Hb as (? & ? & ? & _ & _ & ?); discriminate.
    + intros Hk. exists [], s, caps. split_and!; [done | constructor | done].
  - destruct (body s (clear gs caps) _) as [r0|] eqn:Hb.
    + intros [= ->]. apply Hbody in Hb as (u1 & s1 & c1 & -> & Hu1 & Hk1).
      destruct (length s1 <? length (u1 ++ s1))%nat; [|discriminate].
      apply IH in Hk1 as (u2 & s2 & c2 & -> & Hu2 & Hk2).
      exists (u1 ++ u2), s2, c2. split_and!; [by rewrite <- app_assoc | by constructor | done].
    + intros Hk. exists [], s, caps. split_and!; [done | constructor | done].
Qed.

(** Every match of a pattern consumes a text of the pattern. *)
Theorem m_consumes ci r : consumes (lang ci r) (m ci r).
Proof.
  induction r as [|c| |neg items|r1 IH1 r2 IH2|r1 IH1 r2 IH2|r IH|r IH|n r IH|];
    intros s caps k res; simpl.
  - intros Hk. exists [], s, caps. split_and!; [done | constructor | done].
  - destruct s as [|x s']; [done|]. destruct (chr_matches ci c x) eqn:Hc; [|done].
    intros Hk. exists [x], s', caps. split_and!; [done | by constructor | done].
  - destruct s as [|x s']; [done|]. destruct (is_line_terminator x) eqn:Hc; [done|].
    intros Hk. exists [x], s', caps. split_and!; [done | by constructor | done].
  - destruct s as [|x s']; [done|]. destruct (cls_matches ci neg items x) eqn:Hc; [|done].
    intros Hk. exists [x], s', caps. split_and!; [done | by constructor | done].
  - intros H. apply IH1 in H as (u1 & s1 & c1 & -> & Hu1 & H).
    apply IH2 in H as (u2 & s2 & c2 & -> & Hu2 & H).
    exists (u1 ++ u2), s2, c2. split_and!; [by rewrite <- app_assoc | by constructor | done].
  - destruct (m ci r1 s caps k) as [r0|] eqn:H1.
    + intros [= ->]. apply IH1 in H1 as (u & s1 & c1 & -> & Hu & H).
      exists u, s1, c1. split_and!; [done | by apply lang_alt_l | done].
    + intros H. apply IH2 in H as (u & s1 & c1 & -> & Hu & H).
      exists u, s1, c1. split_and!; [done | by apply lang_alt_r | done].
  - by apply star_loop_consumes.
  - destruct (m ci r s (clear (groups r) caps) _) as [r0|] eqn:H1.
    + intros [= ->]. apply IH in H1 as (u & s1 & c1 & -> & Hu & H).
      destruct (length s1 <? length (u ++ s1))%nat; [|done].
      exists u, s1, c1. split_and!; [done | by apply lang_opt_some | done].
    + intros Hk. exists [], s, caps. split_and!; [done | constructor | done].
  - intros H. apply IH in H as (u & s1 & c1 & -> & Hu & H).
    eexists u, s1, _. split_and!; [done | by constructor | done].
  - destruct s; [|done]. intros Hk. exists [], [], caps.
    split_and!; [done | constructor | done].
Qed.

(** What a capturing group records is the text its pattern consumed. *)
Lemma group_consumes ci n r s caps k res :
  m ci (Group n r) s caps k = Some res →
  ∃ u s' caps', s = u ++ s' ∧ lang ci r u ∧ k s' (<[n := u]> caps') = Some res.
Proof.
  simpl. intros H. apply m_consumes in H as (u & s1 & c1 & -> & Hu & H).
  rewrite length_app in H.
  replace (length u + length s1 - length s1)%nat with (length u) in H by lia.
  rewrite take_app_length in H. by exists u, s1, c1.
Qed.

(** A match found by [exec] starts somewhere in the input. *)
Lemma exec_position re s res :
  exec re s = Some res → ∃ p t, s = p ++ t ∧ match_here re t = Some res.
Proof.
  induction s as [|c s IH]; simpl.
  - destruct (match_here re []) eqn:H; [|done]. intros [= ->]. by exists [], [].
  - destruct (match_here re (c :: s)) eqn:H.
    + intros [= ->]. by exists [], (c :: s).
    + intros H'. apply IH in H' as (p & t & -> & Ht). by exists (c :: p), t.
Qed.

(** *** The texts of particular patterns *)

Lemma lang_Lit l u : lang false (Lit l) u → u = l.
Proof.
  revert u. induction l as [|c l IH]; intros u H; simpl in H.
  - by inversion H.
  - inversion H as [| | | |r1 r2 u1 u2 H1 H2| | | | | | | |]; subst.
    inversion H1 as [|c' x Hx| | | | | | | | | | |]; subst.
    unfold chr_matches, canon in Hx. simpl in Hx. apply N.eqb_eq in Hx as ->.
    simpl. f_equal. by apply IH.
Qed.

Lemma lang_Times_Cls ci n neg items u :
  lang ci (Times n (Cls neg items)) u →
  length u = n ∧ Forall (λ x, cls_matches ci neg items x = true) u.
Proof.
  revert u. induction n as [|n IH]; intros u H; simpl in H.
  - by inversion H.
  - inversion H as [| | | |r1 r2 u1 u2 H1 H2| | | | | | | |]; subst.
    inversion H1; subst. apply IH in H2 as [<- Hall].
    split; [done | by constructor].
Qed.

Lemma lang_Star_Cls ci neg items u :
  lang ci (Star (Cls neg items)) u → Forall (λ x, cls_matches ci neg items x = true) u.
Proof.
  intros H. remember (Star (Cls neg items)) as r eqn:Hr.
  induction H as [| | | | | | | |r0 u1 u2 H1 _ H2 IH2| | | |]; try discriminate Hr.
  - constructor.
  - injection Hr as ->. inversion H1; subst. constructor; [done | by apply IH2].
Qed.

Lemma lang_Plus_Cls ci neg items u :
  lang ci (Plus (Cls neg items)) u →
  u ≠ [] ∧ Forall (λ x, cls_matches ci neg items x = true) u.
Proof.
  unfold Plus. intros H.
  inversion H as [| | | |r1 r2 u1 u2 H1 H2| | | | | | | |]; subst.
  inversion H1; subst. apply lang_Star_Cls in H2.
  split; [done | by constructor].
Qed.

End LanguageFacts.

(** ** More on [parseVideoUrl] *)

Module ClassifierMore.
Import Js Regex RegexFacts StringFacts Language LanguageFacts VideoUtils VideoFacts Spec.

Lemma seq_consumes ci r1 r2 s caps k res :
  m ci (Seq r1 r2) s caps k = Some res →
  ∃ u s' caps', s = u ++ s' ∧ lang ci r1 u ∧ m ci r2 s' caps' k = Some res.
Proof. simpl. intros H. by apply m_consumes in H. Qed.

Lemma seq_unfold ci r1 r2 s caps k :
  m ci (Seq r1 r2) s caps k = m ci r1 s caps (λ s' caps', m ci r2 s' caps' k).
Proof. reflexivity. Qed.

Lemma id_class x :
  cls_matches false true [One 34; One (code "&"); One (code "?"); One (code "/"); Space] x
  = id_char x.
Proof.
  unfold cls_matches, in_class, id_char. cbn -[N.eqb is_space].
  rewrite !(N.eqb_sym x). by rewrite !orb_false_r, !orb_assoc.
Qed.

Lemma digit_class x : cls_matches false false [Digit] x = is_digit x.
Proof. unfold cls_matches, in_class, is_digit. cbn -[N.leb]. by rewrite !orb_false_r. Qed.

(** The parts of a match of the YouTube pattern: what precedes it, the host
    part, the identifier and what follows. *)
Lemma youtube_match_shape u res :
  exec youtubeRegex u = Some res →
  ∃ p h id post,
    u = p ++ h ++ id ++ post
    ∧ res !! 1%nat = Some id
    ∧ length id = 11%nat
    ∧ Forall (λ c, id_char c = true) id
    ∧ (starts_with (lit "youtube.com/") h = true ∨ h = lit "youtu.be/").
Proof.
  intros H. apply exec_position in H as (p & t & -> & H).
  unfold match_here, youtubeRegex in H. cbn [pattern ignoreCase] in H.
  apply seq_consumes in H as (h & s1 & c1 & -> & Hh & H).
  apply group_consumes in H as (id & s2 & c2 & -> & Hid & [= <-]).
  exists p, h, id, s2. split_and!; [done | | | |].
  - by rewrite lookup_insert_ne, lookup_insert_eq.
  - by apply lang_Times_Cls in Hid as [? _].
  - apply lang_Times_Cls in Hid as [_ Hall].
    eapply Forall_impl; [exact Hall|]. intros x Hx. by rewrite <- id_class.
  - inversion Hh as [| | | | |r1 r2 u0 Hl|r1 r2 u0 Hr| | | | | |]; subst.
    + inversion Hl as [| | | |r1 r2 u1 u2 H1 H2| | | | | | | |]; subst.
      apply (lang_Lit (lit "youtube.com/")) in H1 as ->. left.
      apply starts_with_refl_app.
    + apply (lang_Lit (lit "youtu.be/")) in Hr as ->. by right.
Qed.

(** The parts of a match of the Vimeo pattern. *)
Lemma vimeo_match_shape u res :
  exec vimeoRegex u = Some res →
  ∃ p mid id post,
    u = p ++ lit "vimeo.com/" ++ mid ++ id ++ post
    ∧ res !! 1%nat = Some id
    ∧ id ≠ []
    ∧ Forall (λ c, is_digit c = true) id.
Proof.
  intros H. apply exec_position in H as (p & t & -> & H).
  unfold match_here, vimeoRegex in H. cbn [pattern ignoreCase] in H.
  apply seq_consumes in H as (h & s1 & c1 & -> & Hh & H).
  apply (lang_Lit (lit "vimeo.com/")) in Hh as ->.
  apply seq_consumes in H as (mid & s2 & c2 & -> & _ & H).
  rewrite seq_unfold in H.
  apply group_consumes in H as (id & s3 & c3 & -> & Hid & H).
  apply lang_Plus_Cls in Hid as [Hne Hall].
  apply m_passes in H as (s4 & c4 & [= <-] & _ & Hf).
  exists p, mid, id, s3. split_and!; [done | | done |].
  - rewrite lookup_insert_ne by done. rewrite (Hf 1%nat) by (simpl; set_solver).
    apply lookup_insert_eq.
  - eapply Forall_impl; [exact Hall|]. intros x Hx. by rewrite <- digit_class.
Qed.

Lemma parse_youtube s :
  type (parseVideoUrl s) = youtube →
  ∃ res, exec youtubeRegex (trim s) = Some res
         ∧ url (parseVideoUrl s) = trim s
         ∧ videoId (parseVideoUrl s) = res !! 1%nat
         ∧ embedUrl (parseVideoUrl s)
           = Some (lit "https://www.youtube.com/embed/" ++ interpolate (res !! 1%nat)
                     ++ lit "?rel=0&modestbranding=1").
Proof.
  unfold parseVideoUrl. destruct s as [|c s]; [done|].
  destruct (exec youtubeRegex (trim (c :: s))) as [res|]; [by eauto|].
  destruct (exec vimeoRegex _); [done|]. by destruct (test videoExtensions _).
Qed.

Lemma parse_vimeo s :
  type (parseVideoUrl s) = vimeo →
  ∃ res, exec vimeoRegex (trim s) = Some res
         ∧ url (parseVideoUrl s) = trim s
         ∧ videoId (parseVideoUrl s) = res !! 1%nat
         ∧ embedUrl (parseVideoUrl s)
           = Some (lit "https://player.vimeo.com/video/" ++ interpolate (res !! 1%nat)).
Proof.
  unfold parseVideoUrl. destruct s as [|c s]; [done|].
  destruct (exec youtubeRegex (trim (c :: s))) as [res|]; [done|].
  destruct (exec vimeoRegex _) as [res|]; [by eauto|]. by destruct (test videoExtensions _).
Qed.

(** The identifier of a YouTube classification has exactly eleven code
    units, none of which is a double quote, an ampersand, a question mark, a
    slash or white space, and the embed URL is built around it. *)
Theorem youtube_id_shape (s : list N) :
  type (parseVideoUrl s) = youtube →
  ∃ id, videoId (parseVideoUrl s) = Some id
        ∧ length id = 11%nat
        ∧ Forall (λ c, id_char c = true) id
        ∧ embedUrl (parseVideoUrl s)
          = Some (lit "https://www.youtube.com/embed/" ++ id ++ lit "?rel=0&modestbranding=1").
Proof.
  intros H. apply parse_youtube in H as (res & Hex & _ & Hid & Hemb).
  apply youtube_match_shape in Hex as (p & h & id & post & _ & Hres & Hlen & Hall & _).
  exists id. rewrite Hid, Hemb, Hres. done.
Qed.

Lemma youtube_id_shape_witness :
  ∃ id, videoId (parseVideoUrl (lit "https://www.youtube.com/watch?v=dQw4w9WgXcQ&t=1")) = Some id
        ∧ length id = 11%nat
        ∧ Forall (λ c, id_char c = true) id
        ∧ embedUrl (parseVideoUrl (lit "https://www.youtube.com/watch?v=dQw4w9WgXcQ&t=1"))
          = Some (lit "https://www.youtube.com/embed/" ++ id ++ lit "?rel=0&modestbranding=1").
Proof. apply youtube_id_shape. vm_compute. reflexivity. Defined.

(** The identifier of a Vimeo classification is a non-empty run of decimal
    digits, and the player URL ends with it. *)
Theorem vimeo_id_shape (s : list N) :
  type (parseVideoUrl s) = vimeo →
  ∃ id, videoId (parseVideoUrl s) = Some id
        ∧ id ≠ []
        ∧ Forall (λ c, is_digit c = true) id
        ∧ embedUrl (parseVideoUrl s) = Some (lit "https://player.vimeo.com/video/" ++ id).
Proof.
  intros H. apply parse_vimeo in H as (res & Hex & _ & Hid & Hemb).
  apply vimeo_match_shape in Hex as (p & mid & id & post & _ & Hres & Hne & Hall).
  exists id. rewrite Hid, Hemb, Hres. done.
Qed.

Lemma vimeo_id_shape_witness :
  ∃ id, videoId (parseVideoUrl (lit "https://vimeo.com/channels/staffpicks/76979871")) = Some id
        ∧ id ≠ []
        ∧ Forall (λ c, is_digit c = true) id
        ∧ embedUrl (parseVideoUrl (lit "https://vimeo.com/channels/staffpicks/76979871"))
          = Some (lit "https://player.vimeo.com/video/" ++ id).
Proof. apply vimeo_id_shape. vm_compute. reflexivity. Defined.

Lemma starts_with_split (l h : list N) :
  starts_with l h = true → ∃ h', h = l ++ h'.
Proof.
  revert h. induction l as [|c l IH]; intros h Hh; [by exists h|].
  destruct h as [|x h]; [done|]. simpl in Hh.
  apply andb_true_iff in Hh as [Hx Hh]. apply N.eqb_eq in Hx as ->.
  destruct (IH h Hh) as [h' ->]. by exists h'.
Qed.

(** Where the identifier of a hosted classification comes from. *)
Lemma hosted_parts s :
  hosted (type (parseVideoUrl s)) →
  ∃ a marker mid id b,
    trim s = a ++ marker ++ mid ++ id ++ b
    ∧ marker ∈ markers (type (parseVideoUrl s))
    ∧ videoId (parseVideoUrl s) = Some id.
Proof.
  intros [H|H].
  - rewrite H. apply parse_youtube in H as (res & Hex & _ & Hid & _).
    apply youtube_match_shape in Hex as (p & h & id & post & Hu & Hres & _ & _ & Hh).
    rewrite Hid, Hres. destruct Hh as [Hh| ->].
    + apply starts_with_split in Hh as [h' ->].
      exists p, (lit "youtube.com/"), h', id, post.
      split_and!; [by rewrite Hu, <- !app_assoc | apply list_elem_of_here | done].
    + exists p, (lit "youtu.be/"), [], id, post.
      split_and!; [done | apply list_elem_of_further, list_elem_of_here | done].
  - rewrite H. apply parse_vimeo in H as (res & Hex & _ & Hid & _).
    apply vimeo_match_shape in Hex as (p & mid & id & post & Hu & Hres & _ & _).
    rewrite Hid, Hres. exists p, (lit "vimeo.com/"), mid, id, post.
    split_and!; [done | apply list_elem_of_here | done].
Qed.

(** A hosted classification is read from the URL itself: the trimmed URL
    contains [youtube.com/] or [youtu.be/] for the YouTube variant and
    [vimeo.com/] for the Vimeo variant, and it contains the identifier. *)
Theorem hosted_needs_marker (s : list N) :
  hosted (type (parseVideoUrl s)) →
  ∃ marker id,
    marker ∈ markers (type (parseVideoUrl s))
    ∧ includes marker (trim s) = true
    ∧ videoId (parseVideoUrl s) = Some id
    ∧ includes id (trim s) = true.
Proof.
  intros H. apply hosted_parts in H as (a & marker & mid & id & b & Hu & Hm & Hid).
  exists marker, id. split_and!; [done | | done |].
  - rewrite Hu. apply includes_app.
  - rewrite Hu, !app_assoc, <- (app_assoc _ id b). apply includes_app.
Qed.

Lemma hosted_needs_marker_witness :
  ∃ marker id,
    marker ∈ markers (type (parseVideoUrl (lit " https://youtu.be/dQw4w9WgXcQ ")))
    ∧ includes marker (trim (lit " https://youtu.be/dQw4w9WgXcQ ")) = true
    ∧ videoId (parseVideoUrl (lit " https://youtu.be/dQw4w9WgXcQ ")) = Some id
    ∧ includes id (trim (lit " https://youtu.be/dQw4w9WgXcQ ")) = true.
Proof. apply hosted_needs_marker. left. vm_compute. reflexivity. Defined.

Lemma no_marker_direct (p e q : list N) :
  video_extension e → query q → one_line q →
  includes (lit "youtube.com/") (trim (p ++ code "." :: e ++ q)) = false →
  includes (lit "youtu.be/") (trim (p ++ code "." :: e ++ q)) = false →
  includes (lit "vimeo.com/") (trim (p ++ code "." :: e ++ q)) = false →
  parseVideoUrl (p ++ code "." :: e ++ q) =
    {| type := direct; url := trim (p ++ code "." :: e ++ q);
       embedUrl := None; videoId := None |}.
Proof.
  intros He Hq Hline Hy1 Hy2 Hv.
  assert (¬ hosted (type (parseVideoUrl (p ++ code "." :: e ++ q)))) as Hnot.
  { intros H. pose proof H as H'.
    apply hosted_parts in H' as (a & marker & mid & id & b & Hu & Hm & _).
    assert (includes marker (trim (p ++ code "." :: e ++ q)) = true) as Hin
      by (rewrite Hu; apply includes_app).
    destruct H as [H|H]; rewrite H in Hm; cbn [markers] in Hm;
      repeat (apply elem_of_cons in Hm as [->|Hm]; [congruence|]);
      by apply elem_of_nil in Hm. }
  revert Hnot. unfold parseVideoUrl, hosted.
  destruct (p ++ code "." :: e ++ q) as [|c s] eqn:Hs; [by destruct p|].
  rewrite <- Hs in *.
  destruct (exec youtubeRegex _); [intros Hnot; exfalso; apply Hnot; by left|].
  destruct (exec vimeoRegex _); [intros Hnot; exfalso; apply Hnot; by right|].
  intros _.
  destruct (trim_extension p e q He Hq Hline) as (p' & q' & -> & Hq' & Hline').
  unfold test.
  destruct (exec_skip videoExtensions p' (code "." :: e ++ q')) as [res ->]; [|done].
  by apply extension_here.
Qed.

(** A URL that mentions none of the three hosts and ends with a video
    extension, optionally followed by a one-line query string, is a direct
    file. *)
Theorem direct_without_marker (p e q : list N) :
  video_extension e → query q → one_line q →
  includes (lit "youtube.com/") (trim (p ++ code "." :: e ++ q)) = false →
  includes (lit "youtu.be/") (trim (p ++ code "." :: e ++ q)) = false →
  includes (lit "vimeo.com/") (trim (p ++ code "." :: e ++ q)) = false →
  parseVideoUrl (p ++ code "." :: e ++ q) =
    {| type := direct; url := trim (p ++ code "." :: e ++ q);
       embedUrl := None; videoId := None |}.
Proof. apply no_marker_direct. Qed.

Lemma direct_without_marker_witness :
  parseVideoUrl (lit "https://cdn.example.com/a/intro" ++ code "." :: lit "WebM" ++ lit "?v=2") =
    {| type := direct;
       url := trim (lit "https://cdn.example.com/a/intro" ++ code "." :: lit "WebM" ++ lit "?v=2");
       embedUrl := None; videoId := None |}.
Proof.
  apply direct_without_marker.
  - unfold video_extension. vm_compute. apply list_elem_of_further, list_elem_of_here.
  - right. by eexists.
  - repeat constructor.
  - vm_compute. reflexivity.
  - vm_compute. reflexivity.
  - vm_compute. reflexivity.
Defined.

(** *** Trimming *)

Lemma trimStart_head (s : list N) c r : trimStart s = c :: r → is_space c = false.
Proof.
  induction s as [|x s IH]; simpl; [done|].
  destruct (is_space x) eqn:Hx; [done|]. by intros [= <- <-].
Qed.

Lemma trimStart_fix (s : list N) :
  (∀ c r, s = c :: r → is_space c = false) → trimStart s = s.
Proof. destruct s as [|c r]; [done|]. intros H. simpl. by rewrite (H c r). Qed.

Lemma trimStart_suffix (s : list N) : trimStart s `suffix_of` s.
Proof.
  induction s as [|x s IH]; simpl; [done|].
  destruct (is_space x); [by apply suffix_cons_r | done].
Qed.

(** Trimming a trimmed string changes nothing. *)
Lemma trim_idem (s : list N) : trim (trim s) = trim s.
Proof.
  unfold trim.
  set (a := trimStart s). set (b := trimStart (rev a)).
  assert (trimStart (rev b) = rev b) as ->.
  { apply trimStart_fix. intros c r Hc.
    destruct (trimStart_suffix (rev a)) as [x Hx]. fold b in Hx.
    apply (f_equal (@rev N)) in Hx. rewrite rev_involutive, rev_app_distr, Hc in Hx.
    apply (trimStart_head s c (r ++ rev x)). done. }
  rewrite rev_involutive. f_equal.
  apply trimStart_fix. intros c r Hc. by apply (trimStart_head (rev a) c r).
Qed.

(** A string that neither starts nor ends with white space is trimmed
    already. *)
Lemma trim_fixed (c : N) (mid : list N) (x : N) :
  is_space c = false → is_space x = false → trim (c :: mid ++ [x]) = c :: mid ++ [x].
Proof.
  intros Hc Hx. unfold trim.
  assert (trimStart (c :: mid ++ [x]) = c :: mid ++ [x]) as -> by (simpl; by rewrite Hc).
  assert (rev (c :: mid ++ [x]) = x :: rev (c :: mid)) as Hrev
    by apply (rev_unit (c :: mid) x).
  rewrite Hrev.
  assert (trimStart (x :: rev (c :: mid)) = x :: rev (c :: mid)) as ->
    by (simpl; by rewrite Hx).
  rewrite <- Hrev. apply rev_involutive.
Qed.

Lemma parse_trim (s : list N) : parseVideoUrl (trim s) = parseVideoUrl s.
Proof.
  unfold parseVideoUrl. destruct s as [|x s]; [done|].
  pose proof (trim_idem (x :: s)) as Hidem.
  destruct (trim (x :: s)) as [|c r]; [done|]. by rewrite Hidem.
Qed.

Lemma trimStart_nil (s : list N) : trimStart s = [] → Forall (λ c, is_space c = true) s.
Proof.
  induction s as [|x s IH]; simpl; [done|].
  destruct (is_space x) eqn:Hx; [|done]. intros H. constructor; [done | by apply IH].
Qed.

(** Only blank strings trim to the empty string. *)
Lemma trim_nil (s : list N) : trim s = [] → Forall (λ c, is_space c = true) s.
Proof.
  unfold trim. intros H.
  apply (f_equal (@rev N)) in H. rewrite rev_involutive in H. simpl in H.
  apply trimStart_nil in H.
  assert (Forall (λ c, is_space c = true) (trimStart s)) as Ha.
  { apply Forall_forall. intros c Hc. rewrite Forall_forall in H. apply H.
    apply list_elem_of_In. apply -> in_rev. by apply list_elem_of_In. }
  destruct (trimStart s) as [|c r] eqn:Hs; [by apply trimStart_nil|].
  apply trimStart_head in Hs. apply Forall_cons in Ha as [Hc _]. congruence.
Qed.

(** The classification depends on the trimmed input only: its URL is the
    trimmed input, and classifying the trimmed input (so also the URL of a
    classification) gives the same result. *)
Theorem classification_of_trimmed (s : list N) :
  url (parseVideoUrl s) = trim s
  ∧ parseVideoUrl (trim s) = parseVideoUrl s
  ∧ parseVideoUrl (url (parseVideoUrl s)) = parseVideoUrl s.
Proof.
  assert (url (parseVideoUrl s) = trim s) as Hurl.
  { destruct (parseVideoUrl_cases s) as [(id & _ & ->)|[(id & _ & ->)|[->| ->]]]; done. }
  pose proof (parse_trim s) as Htrim.
  split_and!; [done | done | by rewrite Hurl].
Qed.

End ClassifierMore.

(** ** More on the storage back ends *)

Module StorageMore.
Import Js Regex Storage StringFacts Spec.

(** *** Sanitized names *)

(** Sanitizing keeps the length of a name, leaves only Latin letters,
    digits, dots, dashes and underscores, and changes nothing when applied a
    second time. *)
Theorem sanitize_safe_idempotent (name : list N) :
  length (sanitize name) = length name
  ∧ Forall (λ c, kept c = true ∨ c = 95) (sanitize name)
  ∧ sanitize (sanitize name) = sanitize name.
Proof.
  rewrite !sanitize_spec. split_and!.
  - apply length_map.
  - apply Forall_forall. intros c Hc. apply list_elem_of_fmap in Hc as (x & -> & _).
    destruct (kept x) eqn:Hx; by auto.
  - rewrite map_map. apply map_ext. intros c.
    destruct (kept c) eqn:Hc; [by rewrite Hc | done].
Qed.

(** *** From an uploaded URL back to its key *)

Lemma includes_cons (p : list N) c s :
  includes p (c :: s) = starts_with p (c :: s) || includes p s.
Proof. reflexivity. Qed.

(** A text that ends with [x] does not occur in a text without [x]. *)
Lemma includes_missing (d : list N) x (s : list N) :
  x ∉ s → includes (d ++ [x]) s = false.
Proof.
  intros Hx.
  assert (∀ d s, x ∉ s → starts_with (d ++ [x]) s = false) as Hsw.
  { clear. intros d. induction d as [|c d IH]; intros [|y s] Hx; cbn -[N.eqb]; try done.
    - rewrite not_elem_of_cons in Hx. destruct Hx as [Hne _].
      by apply N.eqb_neq in Hne as ->.
    - rewrite not_elem_of_cons in Hx. destruct Hx as [_ Hx].
      rewrite (IH s Hx). apply andb_false_r. }
  induction s as [|y s IH].
  - cbn -[N.eqb]. rewrite orb_false_r. by apply Hsw.
  - rewrite includes_cons, Hsw by done.
    rewrite not_elem_of_cons in Hx. destruct Hx as [_ Hx]. by apply IH.
Qed.

(** A domain followed by a slash cannot start before a colon it does not
    contain. *)
Lemma guard_colon (d w rest : list N) :
  58 ∉ d → 47 ∉ w → starts_with (d ++ [47]) (w ++ 58 :: rest) = false.
Proof.
  revert d. induction w as [|x w IH]; intros d Hd Hw.
  - destruct d as [|c d]; [done|]. cbn -[N.eqb].
    rewrite not_elem_of_cons in Hd. destruct Hd as [Hne _].
    by apply not_eq_sym, N.eqb_neq in Hne as ->.
  - rewrite not_elem_of_cons in Hw. destruct Hw as [Hne Hw].
    destruct d as [|c d];  cbn -[N.eqb].
    + by apply N.eqb_neq in Hne as ->.
    + rewrite not_elem_of_cons in Hd. destruct Hd as [_ Hd].
      rewrite (IH d Hd Hw). apply andb_false_r.
Qed.

Lemma guard_slash (d rest : list N) :
  d ≠ [] → 47 ∉ d → starts_with (d ++ [47]) (47 :: rest) = false.
Proof.
  intros Hne Hd. destruct d as [|c d]; [done|]. cbn -[N.eqb].
  rewrite not_elem_of_cons in Hd. destruct Hd as [Hc _].
  by apply not_eq_sym, N.eqb_neq in Hc as ->.
Qed.

(** In [https://domain] the domain followed by a slash does not occur. *)
Lemma domain_first (d : list N) :
  d ≠ [] → 47 ∉ d → 58 ∉ d → includes (d ++ [47]) (lit "https://" ++ d) = false.
Proof.
  intros Hne H47 H58.
  assert (∀ w, w ∈ [[104; 116; 116; 112; 115]; [116; 116; 112; 115]; [116; 112; 115];
                     [112; 115]; [115]; []] →
               starts_with (d ++ [47]) (w ++ 58 :: 47 :: 47 :: d) = false) as Hcolon.
  { intros w Hw. apply guard_colon; [done|].
    intros H. apply list_elem_of_In in H. apply list_elem_of_In in Hw.
    vm_compute in Hw. intuition (subst; vm_compute in H; intuition discriminate). }
  change (lit "https://") with [104; 116; 116; 112; 115; 58; 47; 47]. simpl app.
  rewrite !includes_cons.
  pose proof (Hcolon [104; 116; 116; 112; 115] ltac:(set_solver)) as G; simpl app in G; rewrite G; clear G.
  pose proof (Hcolon [116; 116; 112; 115] ltac:(set_solver)) as G; simpl app in G; rewrite G; clear G.
  pose proof (Hcolon [116; 112; 115] ltac:(set_solver)) as G; simpl app in G; rewrite G; clear G.
  pose proof (Hcolon [112; 115] ltac:(set_solver)) as G; simpl app in G; rewrite G; clear G.
  pose proof (Hcolon [115] ltac:(set_solver)) as G; simpl app in G; rewrite G; clear G.
  pose proof (Hcolon [] ltac:(set_solver)) as G; simpl app in G; rewrite G; clear G.
  rewrite !guard_slash by done.
  by rewrite includes_missing.
Qed.

(** The key read off the URL this module builds for a key. *)
Lemma s3_key_of_own_url (cfg : S3Config) (key : list N) :
  cloudFrontDomain cfg ≠ [] →
  code "/" ∉ cloudFrontDomain cfg →
  code ":" ∉ cloudFrontDomain cfg →
  includes (cloudFrontDomain cfg ++ lit "/") key = false →
  s3_key_of_url cfg (s3_url cfg key) = Some key.
Proof.
  intros Hne Hslash Hcolon Hkey. unfold s3_key_of_url, s3_url.
  assert (is_empty (cloudFrontDomain cfg) = false) as ->
    by by destruct (cloudFrontDomain cfg).
  rewrite includes_app.
  change (lit "/") with [47] in *.
  apply split_second; [|done].
  by apply domain_first.
Qed.

(** With a CloudFront domain configured (a host name: no slash, no colon),
    deleting the URL that an upload returned asks S3 to delete exactly the
    key the upload stored, provided the domain followed by a slash does not
    occur inside the key. *)
Theorem s3_upload_then_delete (sdk : KeyCheck) (cfg : S3Config) (timestamp : N)
    (file : File) (folder : list N) (onProgress : bool) (reply : option AwsError) :
  isS3Configured cfg = true →
  cloudFrontDomain cfg ≠ [] →
  code "/" ∉ cloudFrontDomain cfg →
  code ":" ∉ cloudFrontDomain cfg →
  includes (cloudFrontDomain cfg ++ lit "/") (s3_key folder timestamp file) = false →
  ∃ fileUrl,
    outcome (uploadFileToS3 cfg timestamp None file folder onProgress) = inr fileUrl
    ∧ deleteFileFromS3 sdk cfg reply fileUrl
      = Run [S3DeleteObject (bucket cfg) (Some (s3_key folder timestamp file))]
            (s3_sent reply).
Proof.
  intros Hcfg Hne Hslash Hcolon Hkey.
  exists (s3_url cfg (s3_key folder timestamp file)).
  unfold isS3Configured in Hcfg. unfold uploadFileToS3, deleteFileFromS3.
  destruct (is_empty (bucket cfg)); [by rewrite andb_false_r in Hcfg|].
  destruct (is_empty (region cfg)); [done|].
  destruct (is_empty (accessKeyId cfg)); [done|].
  destruct (is_empty (secretAccessKey cfg)); [done|].
  split; [done|]. cbv zeta. rewrite s3_key_of_own_url by done.
  assert (refused sdk (Some (s3_key folder timestamp file)) = None) as ->; [|done].
  unfold s3_key. by destruct folder.
Qed.

Lemma s3_upload_then_delete_witness :
  ∃ fileUrl,
    outcome (uploadFileToS3 Samples.cdn_cfg 1700000000000 None Samples.photo
               (lit "uploads") true) = inr fileUrl
    ∧ deleteFileFromS3 Samples.strict_sdk Samples.cdn_cfg None fileUrl
      = Run [S3DeleteObject (bucket Samples.cdn_cfg)
               (Some (s3_key (lit "uploads") 1700000000000 Samples.photo))]
            (s3_sent None).
Proof.
  apply s3_upload_then_delete.
  - vm_compute. reflexivity.
  - vm_compute. discriminate.
  - intros H. apply list_elem_of_In in H. vm_compute in H. intuition discriminate.
  - intros H. apply list_elem_of_In in H. vm_compute in H. intuition discriminate.
  - vm_compute. reflexivity.
Defined.

(** Deleting, on the managed back end, a URL that ends with a slash and the
    path an upload stored asks for the removal of exactly that path, from
    the bucket given. *)
Theorem supabase_upload_then_delete (timestamp : N) (file : File) (base : list N)
    (reply : option (list N)) (b : Bucket) :
  deleteFileFromSupabase reply (base ++ lit "/" ++ supabase_path timestamp file) b
  = Run [SupabaseRemove b [supabase_path timestamp file]] (supabase_sent reply).
Proof.
  unfold deleteFileFromSupabase. change (lit "/") with [47]. simpl split. simpl app.
  rewrite split_char_last.
  - unfold supabase_path.
    destruct (string_of_N timestamp ++ lit "-" ++ sanitize (name file)) as [|c p] eqn:Hp;
      [|done].
    by destruct (string_of_N timestamp).
  - unfold supabase_path. intros Hin.
    apply elem_of_app in Hin as [Hin|Hin].
    + pose proof (string_of_N_digits timestamp) as Hd. rewrite Forall_forall in Hd.
      apply Hd in Hin. lia.
    + apply elem_of_app in Hin as [Hin|Hin].
      * apply list_elem_of_In in Hin. vm_compute in Hin. intuition discriminate.
      * apply sanitize_safe in Hin. lia.
Qed.

(** *** Progress samples and failures *)

(** When a progress callback is given, both back ends report the 0 % sample
    before the request they send, and report a 100 % sample exactly when the
    upload succeeds; the raw back end, when it is not configured, reports
    and sends nothing. *)
Theorem upload_progress_samples (getPublicUrl : Bucket → list N → list N) (cfg : S3Config)
    (timestamp : N) (file : File) (folder : list N) (b : Bucket)
    (s3_reply : option AwsError) (supabase_reply : list N + list N) :
  let managed := uploadFileToSupabase getPublicUrl timestamp supabase_reply file b true in
  let raw := uploadFileToS3 cfg timestamp s3_reply file folder true in
  take 2 (events managed)
    = [Progress 0 (size file) 0; SupabaseUpload b (supabase_path timestamp file) file]
  ∧ (Progress (size file) (size file) 100 ∈ events managed ↔ Outcome.succeeded (outcome managed) = true)
  ∧ (if isS3Configured cfg
     then take 2 (events raw)
          = [Progress 0 (size file) 0;
             S3PutObject (bucket cfg) (s3_key folder timestamp file) file]
          ∧ (Progress (size file) (size file) 100 ∈ events raw ↔ Outcome.succeeded (outcome raw) = true)
     else events raw = [] ∧ Outcome.succeeded (outcome raw) = false).
Proof.
  assert (∀ (l t : N) (e : event), e ≠ Progress l t 100 →
            ¬ Progress l t 100 ∈ [Progress 0 t 0; e]) as Hno.
  { intros l t e He Hin. rewrite !elem_of_cons, elem_of_nil in Hin.
    destruct Hin as [[=]|[Hin|[]]]. by apply He. }
  split_and!.
  - unfold uploadFileToSupabase. by destruct supabase_reply.
  - unfold uploadFileToSupabase. destruct supabase_reply; simpl; split; try done.
    + intros Hin. by apply Hno in Hin.
    + intros _. rewrite !elem_of_cons. by auto.
  - unfold uploadFileToS3, isS3Configured.
    destruct (is_empty (bucket cfg)); [by rewrite andb_false_r|].
    destruct (is_empty (region cfg)); [done|].
    destruct (is_empty (accessKeyId cfg)); [done|].
    destruct (is_empty (secretAccessKey cfg)); [done|].
    destruct s3_reply; simpl; (split; [done|]); split; try done.
    + intros Hin. by apply Hno in Hin.
    + intros _. rewrite !elem_of_cons. by auto.
Qed.

(** An upload to the raw back end never rejects with the SDK's own error:
    whatever S3 answers, the rejection is an [Error] of this module with a
    message that is not empty. *)
Theorem s3_upload_error_wrapped (cfg : S3Config) (timestamp : N) (file : File)
    (folder : list N) (onProgress : bool) (reply : option AwsError) (t : thrown) :
  outcome (uploadFileToS3 cfg timestamp reply file folder onProgress) = inl t →
  ∃ message, t = Error message ∧ message ≠ [].
Proof.
  unfold uploadFileToS3.
  destruct (is_empty (bucket cfg)); [intros [= <-]; by eexists|].
  destruct (is_empty (region cfg)); [intros [= <-]; by eexists|].
  destruct (is_empty (accessKeyId cfg) || is_empty (secretAccessKey cfg));
    [intros [= <-]; by eexists|].
  destruct reply as [e|]; [|done]. simpl. intros [= <-].
  unfold upload_error.
  repeat match goal with
         | |- context [if ?b then _ else _] => destruct b
         end; by eexists.
Qed.

Lemma s3_upload_error_wrapped_witness :
  ∃ message,
    Error (lit "Access denied: Please check your AWS credentials and S3 bucket permissions")
    = Error message ∧ message ≠ [].
Proof.
  apply (s3_upload_error_wrapped Samples.cdn_cfg 1700000000000 Samples.photo (lit "uploads")
           true (Some {| err_name := lit "Forbidden"; err_message := None;
                         err_status := Some 403 |})).
  vm_compute. reflexivity.
Defined.

(** *** Display names of other URLs *)

(** A URL whose last piece holds neither a dash nor a percent sign has the
    empty display name. *)
Theorem getFileName_without_dash (base piece : list N) :
  code "/" ∉ piece → code "-" ∉ piece → code "%" ∉ piece →
  MediaManager.getFileName (base ++ lit "/" ++ piece) = Some [].
Proof.
  intros Hslash Hdash Hpct.
  unfold MediaManager.getFileName, Uri.decodeURIComponent.
  change (lit "/") with [47]. change (lit "-") with [45]. simpl split. simpl app.
  rewrite split_char_last by done. simpl default.
  rewrite Decode_plain by done. simpl fmap.
  by rewrite split_char_absent.
Qed.

Lemma getFileName_without_dash_witness :
  MediaManager.getFileName (lit "https://cdn.example.com/uploads" ++ lit "/" ++ lit "logo.png")
  = Some [].
Proof.
  apply getFileName_without_dash;
    intros H; apply list_elem_of_In in H; vm_compute in H; intuition discriminate.
Defined.

End StorageMore.

(** ** Listing, loading the gallery, removing the current file *)

Module ListingFacts.
Import Js Storage Listing StringFacts Spec StorageMore.

(** With a CloudFront domain configured (a host name), every URL that the
    listing of the raw back end returns leads [deleteFileFromS3] back to the
    key it was listed for, as long as the domain followed by a slash does
    not occur inside the keys; the listing asks for the keys under
    [folder/]. *)
Theorem s3_list_then_delete (cfg : S3Config) (folder : list N) (keys : list (list N)) :
  isS3Configured cfg = true →
  cloudFrontDomain cfg ≠ [] →
  code "/" ∉ cloudFrontDomain cfg →
  code ":" ∉ cloudFrontDomain cfg →
  Forall (λ key, includes (cloudFrontDomain cfg ++ lit "/") key = false) keys →
  ∃ urls,
    listFilesInS3 cfg (inr (Some keys)) folder
    = ([S3ListObjects (bucket cfg) (folder ++ lit "/")], inr urls)
    ∧ Forall2 (λ fileUrl key, s3_key_of_url cfg fileUrl = Some key) urls keys.
Proof.
  intros Hcfg Hne Hslash Hcolon Hkeys. exists (map (s3_url cfg) keys).
  unfold isS3Configured in Hcfg. unfold listFilesInS3.
  destruct (is_empty (bucket cfg)); [by rewrite andb_false_r in Hcfg|].
  destruct (is_empty (region cfg)); [done|].
  destruct (is_empty (accessKeyId cfg)); [done|].
  destruct (is_empty (secretAccessKey cfg)); [done|].
  split; [done|].
  induction Hkeys as [|key keys Hkey _ IH]; simpl; constructor; [|done].
  by apply s3_key_of_own_url.
Qed.

Lemma s3_list_then_delete_witness :
  ∃ urls,
    listFilesInS3 Samples.cdn_cfg (inr (Some [lit "uploads/1-a.png"; lit "uploads/2-b.mp4"]))
      (lit "uploads")
    = ([S3ListObjects (bucket Samples.cdn_cfg) (lit "uploads" ++ lit "/")], inr urls)
    ∧ Forall2 (λ fileUrl key, s3_key_of_url Samples.cdn_cfg fileUrl = Some key) urls
        [lit "uploads/1-a.png"; lit "uploads/2-b.mp4"].
Proof.
  apply s3_list_then_delete.
  - vm_compute. reflexivity.
  - vm_compute. discriminate.
  - intros H. apply list_elem_of_In in H. vm_compute in H. intuition discriminate.
  - intros H. apply list_elem_of_In in H. vm_compute in H. intuition discriminate.
  - repeat constructor.
Defined.

(** Loading the gallery sends both listings and ends the loading state.  If
    both succeed, both lists are replaced, each by the public URLs of the
    listed names without the placeholder entry, and no error is shown; if
    either fails, both lists stay as they were and a non-empty error is
    shown. *)
Theorem load_all_or_nothing (getPublicUrl : Bucket → list N → list N)
    (image_reply video_reply : list N + option (list (list N))) (images_first : bool)
    (st : Gallery.state) :
  let st' := (Gallery.loadFiles getPublicUrl image_reply video_reply images_first st).1 in
  (Gallery.loadFiles getPublicUrl image_reply video_reply images_first st).2
    = [SupabaseList product_images; SupabaseList product_videos]
  ∧ Gallery.loading st' = false
  ∧ match image_reply, video_reply with
    | inr image_data, inr video_data =>
        Gallery.images st'
          = map (getPublicUrl product_images)
              (filter (λ name, name ≠ lit ".emptyFolderPlaceholder") (default [] image_data))
        ∧ Gallery.videos st'
          = map (getPublicUrl product_videos)
              (filter (λ name, name ≠ lit ".emptyFolderPlaceholder") (default [] video_data))
        ∧ Gallery.error st' = []
    | _, _ =>
        Gallery.images st' = Gallery.images st
        ∧ Gallery.videos st' = Gallery.videos st
        ∧ Gallery.error st' ≠ []
    end.
Proof.
  unfold Gallery.loadFiles, listFilesInSupabase.
  destruct image_reply, video_reply, images_first; simpl; by split_and!.
Qed.

(** Removing the current file of the upload component: without a current
    URL nothing happens; otherwise the [onDelete] callback is called exactly
    when it was given and the storage service carried out the removal, and a
    failed removal shows a non-empty error and leaves the success mark as it
    was. *)
Theorem current_file_delete (bucket : Bucket) (currentFileUrl : option (list N))
    (onDelete : bool) (reply : option (list N)) (st : FileUpload.state) :
  let r := FileUploadDelete.handleDelete bucket currentFileUrl onDelete reply st in
  match currentFileUrl with
  | None | Some [] => r = (st, [])
  | Some fileUrl =>
      let d := deleteFileFromSupabase reply fileUrl bucket in
      (FileUploadDelete.OnDelete ∈ r.2 ↔ onDelete = true ∧ Outcome.succeeded (outcome d) = true)
      ∧ FileUpload.uploading r.1 = false
      ∧ (if Outcome.succeeded (outcome d)
         then FileUpload.error r.1 = [] ∧ FileUpload.success r.1 = true
         else FileUpload.error r.1 ≠ []
              ∧ FileUpload.success r.1 = FileUpload.success st)
  end.
Proof.
  destruct currentFileUrl as [[|c u]|]; [done| |done].
  unfold FileUploadDelete.handleDelete, deleteFileFromSupabase.
  destruct (last (split (lit "/") (c :: u))) as [[|x fileName]|];
    [| destruct reply |]; destruct onDelete; cbn;
    (split; [|split; [done|by split]]);
    rewrite ?elem_of_cons, ?elem_of_nil; split; intros H;
    try (destruct H as [H1 H2]; discriminate);
    try (by auto);
    repeat (destruct H as [H|H]; try discriminate H; try done).
Qed.

End ListingFacts.

(** ** The offer form *)

Module OfferFacts.
Import Js VideoUtils StringFacts Spec ClassifierMore OfferModal.

(** An array of texts is copied as it is. *)
Lemma spread_texts (features : list slot) :
  Forall (λ f, is_text f = true) features → spread features = features.
Proof.
  induction 1 as [|f fs Hf _ IH]; [done|].
  unfold spread in *. cbn [map]. rewrite IH. by destruct f.
Qed.

Lemma filter_index_texts (i index : nat) (features : list slot) :
  Forall (λ f, is_text f = true) features →
  Forall (λ f, is_text f = true) (filter_index i index features).
Proof.
  intros Hall. revert i. induction Hall as [|f fs Hf _ IH]; intros i; [done|].
  cbn [filter_index]. destruct f; try done.
  destruct (i =? index)%nat; [apply IH | constructor; [done | apply IH]].
Qed.

Lemma edit_keeps_texts (features : list slot) (e : edit) :
  shown features e = true →
  Forall (λ f, is_text f = true) features →
  apply_edit features e ≠ [] ∧ Forall (λ f, is_text f = true) (apply_edit features e).
Proof.
  intros Hshown Hall. destruct e as [|index|index value]; simpl in *.
  - unfold addFeature. rewrite spread_texts by done. split; [by destruct features|].
    apply Forall_app. split; [done | by constructor].
  - unfold removeFeature.
    pose proof (filter_index_texts 0 index features Hall) as Hdel.
    destruct (filter_index 0 index features); [split; [done | by constructor] | done].
  - unfold updateFeature. rewrite spread_texts by done. rewrite Hshown.
    split; [|by apply Forall_insert].
    apply Nat.ltb_lt in Hshown. intros Hnil.
    apply (f_equal length) in Hnil. rewrite length_insert in Hnil. simpl in Hnil. lia.
Qed.

Lemma texts_submit (features : list slot) :
  Forall (λ f, is_text f = true) features → is_Some (submittedFeatures features).
Proof.
  induction 1 as [|f fs Hf _ [kept IH]]; simpl; [by eauto|].
  destruct f; try done. rewrite IH. by eauto.
Qed.

(** Through any sequence of edits that the form offers, starting from the
    features of the offer being edited (texts, as the form stores them) or
    from the empty form, the features array never becomes empty and never
    holds anything but texts (no hole, no [undefined]), so that the filter
    applied on submit does not throw. *)
Theorem features_stay_well_formed (offer_features : option (list slot)) (edits : list edit)
    (features : list slot) :
  Forall (λ f, is_text f = true) (default [] offer_features) →
  session (initialFeatures offer_features) edits = Some features →
  features ≠ []
  ∧ Forall (λ f, is_text f = true) features
  ∧ is_Some (submittedFeatures features).
Proof.
  intros Hoffer.
  assert (initialFeatures offer_features ≠ []
          ∧ Forall (λ f, is_text f = true) (initialFeatures offer_features)) as Hinit.
  { unfold initialFeatures. destruct offer_features as [[|f fs]|]; simpl in *;
      (split; [done|]); try done; by repeat constructor. }
  revert Hinit. generalize (initialFeatures offer_features). clear Hoffer.
  induction edits as [|e edits IH]; intros fs [Hne Hall]; simpl.
  - intros [= <-]. split_and!; [done | done | by apply texts_submit].
  - destruct (shown fs e) eqn:Hshown; [|done].
    apply IH. by apply edit_keeps_texts.
Qed.

Lemma features_stay_well_formed_witness :
  removeFeature 0 (updateFeature 1 (lit "24/7 support") (addFeature [Text (lit "Backups")])) ≠ []
  ∧ Forall (λ f, is_text f = true)
      (removeFeature 0
         (updateFeature 1 (lit "24/7 support") (addFeature [Text (lit "Backups")])))
  ∧ is_Some (submittedFeatures
               (removeFeature 0
                  (updateFeature 1 (lit "24/7 support") (addFeature [Text (lit "Backups")])))).
Proof.
  apply (features_stay_well_formed (Some [Text (lit "Backups")])
           [Add; Update 1 (lit "24/7 support"); Remove 0]).
  - repeat constructor.
  - reflexivity.
Defined.

(** A media field of the form is saved as [null] exactly when it is blank;
    otherwise the saved text is the trimmed field, it is not empty, saving it
    again changes nothing, and as a video URL it is classified as the field
    itself is while it is being typed. *)
Theorem media_field_saved (field : list N) :
  (trimmed_or_null field = None ↔ blank field)
  ∧ (∀ saved, trimmed_or_null field = Some saved →
       saved = trim field ∧ saved ≠ []
       ∧ trimmed_or_null saved = Some saved
       ∧ parseVideoUrl saved = parseVideoUrl field).
Proof.
  unfold trimmed_or_null. split.
  - split.
    + destruct (trim field) eqn:Ht; [|done]. intros _. by apply trim_nil.
    + intros Hb. by rewrite (trim_blank _ Hb).
  - intros saved. pose proof (trim_idem field) as Hidem. pose proof (parse_trim field) as Hp.
    destruct (trim field) as [|c r]; [done|]. intros [= <-].
    split_and!; [done | done | by rewrite Hidem | done].
Qed.

Lemma media_field_saved_witness :
  trimmed_or_null (lit "   ") = None
  ∧ parseVideoUrl (lit "https://youtu.be/dQw4w9WgXcQ")
    = parseVideoUrl (lit "  https://youtu.be/dQw4w9WgXcQ ").
Proof.
  split.
  - apply (media_field_saved (lit "   ")). repeat constructor.
  - apply (media_field_saved (lit "  https://youtu.be/dQw4w9WgXcQ ")).
    vm_compute. reflexivity.
Defined.

End OfferFacts.

(** ** The video player *)

Module PlayerFacts.
Import Js VideoUtils VideoFacts StringFacts Spec Language VideoPlayer.

Section Player.

Variable time : Type.
Variable zero : time.

(** While the URL stays the same, a player of a direct file never leaves the
    loading state: its listeners were never attached (the effect that
    attaches them runs once, after the first render, which shows only the
    spinner), so whatever the video element reports, the loading overlay
    stays, the controls are never rendered, [isPlaying] keeps the value of
    [autoPlay], and a click on the video always asks for the same thing. *)
Theorem direct_player_stays_loading (link : list N) (autoPlay showControls : bool)
    (events : list (event time)) :
  type (parseVideoUrl link) = direct →
  forallb (λ e, negb (is_url_change e)) events = true →
  let m := run showControls (mount time zero link autoPlay showControls) events in
  listening m = false
  ∧ render showControls (current m) = Native (trim link) true false
  ∧ isPlaying (current m) = autoPlay
  ∧ togglePlay (current m) = (if autoPlay then PauseVideo else PlayVideo).
Proof.
  intros Hdirect Hev.
  assert (url (parseVideoUrl link) = trim link) as Hurl.
  { destruct (parseVideoUrl_cases link) as [(id & _ & ->)|[(id & _ & ->)|[->| ->]]]; done. }
  set (inv := λ m : mounted time,
         listening m = false
         ∧ videoInfo (current m) = Some (parseVideoUrl link)
         ∧ error (current m) = None
         ∧ isLoading (current m) = true
         ∧ isPlaying (current m) = autoPlay).
  assert (inv (mount time zero link autoPlay showControls)) as Hmount.
  { unfold inv, mount, classify. simpl. by rewrite Hdirect. }
  assert (∀ m e, is_url_change e = false → inv m → inv (step showControls m e)) as Hstep.
  { intros [st l] e He (Hl & Hinfo & Herr & Hload & Hplay). simpl in *. subst l.
    assert (render showControls st = Native (trim link) true false) as Hview.
    { unfold render. rewrite Hinfo, Herr, Hdirect, Hload, Hurl. by rewrite andb_false_r. }
    unfold inv, step. cbn [current listening]. rewrite Hview. cbn.
    by destruct e. }
  assert (inv (run showControls (mount time zero link autoPlay showControls) events)) as Hrun.
  { unfold run. revert Hmount. generalize (mount time zero link autoPlay showControls).
    induction events as [|e events IH]; intros m Hm; [done|]. simpl in *.
    apply andb_true_iff in Hev as [He Hev]. apply IH; [done|].
    apply Hstep; [by destruct (is_url_change e) | done]. }
  destruct Hrun as (Hl & Hinfo & Herr & Hload & Hplay).
  split_and!; [done | | done |].
  - unfold render. rewrite Hinfo, Herr, Hdirect, Hload, Hurl. by rewrite andb_false_r.
  - unfold togglePlay. by rewrite Hplay.
Qed.

(** Once the loading state has ended it never comes back, whatever happens
    afterwards, a change of the URL included. *)
Theorem loading_never_returns (showControls : bool) (m : mounted time)
    (events : list (event time)) :
  isLoading (current m) = false →
  isLoading (current (run showControls m events)) = false.
Proof.
  unfold run. revert m. induction events as [|e events IH]; intros m Hm; [done|].
  simpl. apply IH. destruct m as [st l]. simpl in *.
  destruct e; cbn;
    repeat match goal with
           | |- context [if ?b then _ else _] => destruct b
           end; try done.
  unfold classify. by destruct (type (parseVideoUrl _)).
Qed.

(** A player of a hosted video shows the frame on the embed URL of the
    classification, under the loading overlay until the frame reports that
    it has loaded and without it from then on. *)
Theorem hosted_frame_loads (link : list N) (autoPlay showControls : bool) :
  hosted (type (parseVideoUrl link)) →
  let m := mount time zero link autoPlay showControls in
  ∃ src,
    embedUrl (parseVideoUrl link) = Some src
    ∧ render showControls (current m) = Frame (Some src) true
    ∧ render showControls (current (step showControls m FrameLoaded))
      = Frame (Some src) false.
Proof.
  intros Hhosted.
  assert (∃ src, embedUrl (parseVideoUrl link) = Some src) as [src Hsrc].
  { destruct (parseVideoUrl_cases link) as [(id & _ & Hp)|[(id & _ & Hp)|[Hp|Hp]]];
      rewrite Hp in *; try (by eexists); destruct Hhosted; discriminate. }
  exists src. split; [done|].
  unfold mount, step, classify, render.
  set (info := parseVideoUrl link) in *. clearbody info.
  destruct Hhosted as [H|H]; do 3 (rewrite ?H, ?Hsrc; cbn); done.
Qed.

End Player.

Lemma direct_player_stays_loading_witness :
  listening (run true (mount N 0 (lit "https://cdn.example.com/clip.mp4") true true)
               [CanPlay N; Played N; TimeUpdate N 3; Failed N]) = false
  ∧ render true (current (run true (mount N 0 (lit "https://cdn.example.com/clip.mp4") true true)
                            [CanPlay N; Played N; TimeUpdate N 3; Failed N]))
    = Native (trim (lit "https://cdn.example.com/clip.mp4")) true false
  ∧ isPlaying (current (run true (mount N 0 (lit "https://cdn.example.com/clip.mp4") true true)
                          [CanPlay N; Played N; TimeUpdate N 3; Failed N])) = true
  ∧ togglePlay (current (run true (mount N 0 (lit "https://cdn.example.com/clip.mp4") true true)
                           [CanPlay N; Played N; TimeUpdate N 3; Failed N])) = PauseVideo.
Proof.
  apply (direct_player_stays_loading N 0 (lit "https://cdn.example.com/clip.mp4") true true
           [CanPlay N; Played N; TimeUpdate N 3; Failed N]).
  - vm_compute. reflexivity.
  - reflexivity.
Defined.

Lemma loading_never_returns_witness :
  isLoading (current (run true (mount N 0 (lit "not a video") false true)
                        [UrlChanged (lit "https://cdn.example.com/clip.mp4"); CanPlay N]))
  = false.
Proof.
  apply (loading_never_returns N true (mount N 0 (lit "not a video") false true)).
  vm_compute. reflexivity.
Defined.

Lemma hosted_frame_loads_witness :
  ∃ src,
    embedUrl (parseVideoUrl (lit "https://vimeo.com/76979871")) = Some src
    ∧ render true (current (mount N 0 (lit "https://vimeo.com/76979871") true true))
      = Frame (Some src) true
    ∧ render true (current (step true (mount N 0 (lit "https://vimeo.com/76979871") true true)
                              FrameLoaded))
      = Frame (Some src) false.
Proof.
  apply (hosted_frame_loads N 0 (lit "https://vimeo.com/76979871") true true).
  right. vm_compute. reflexivity.
Defined.

(** *** The time display *)

Lemma short_below_60 (r : N) :
  r < 60 →
  (1 ≤ length (string_of_N r) ≤ 2)%nat ∧ Forall (λ c, is_digit c = true) (string_of_N r).
Proof.
  intros Hr.
  assert (forallb (λ k, let d := string_of_N (N.of_nat k) in
                        (1 <=? length d)%nat && (length d <=? 2)%nat && forallb is_digit d)
            (seq 0 60) = true) as Hall by (vm_compute; reflexivity).
  rewrite forallb_forall in Hall.
  specialize (Hall (N.to_nat r)). rewrite N2Nat.id in Hall.
  assert (In (N.to_nat r) (seq 0 60)) as Hin by (apply in_seq; lia).
  apply Hall in Hin. cbv zeta in Hin.
  apply andb_true_iff in Hin as [Hin Hdig]. apply andb_true_iff in Hin as [H1 H2].
  apply Nat.leb_le in H1, H2. split; [lia|].
  apply Forall_forall. intros c Hc. rewrite forallb_forall in Hdig.
  by apply Hdig, list_elem_of_In.
Qed.

(** For a whole number of seconds below 2^53 the display is the minutes, a
    colon and exactly two digits of seconds, a zero put before a single
    digit; below a minute it starts with [0:]. *)
Theorem formatTime_two_digits (n : N) :
  n < 2 ^ 53 →
  ∃ ss,
    formatTime (Whole n) = Some (string_of_N (n / 60) ++ lit ":" ++ ss)
    ∧ length ss = 2%nat
    ∧ Forall (λ c, is_digit c = true) ss
    ∧ (ss = string_of_N (n mod 60) ∨ ss = code "0" :: string_of_N (n mod 60))
    ∧ (n < 60 → formatTime (Whole n) = Some (lit "0:" ++ ss)).
Proof.
  intros Hexact.
  assert (n mod 60 < 60) as Hr by (apply N.mod_lt; lia).
  destruct (short_below_60 _ Hr) as [Hlen Hdig].
  exists (padStart 2 (code "0") (string_of_N (n mod 60))).
  unfold formatTime, exact. apply N.ltb_lt in Hexact. rewrite Hexact.
  cbv zeta. split; [done|]. unfold padStart.
  destruct (string_of_N (n mod 60)) as [|a [|b [|c l]]] eqn:Hs; simpl in Hlen; try lia.
  - split_and!; [done | | by right |].
    + constructor; [done | done].
    + intros Hlt. by rewrite N.div_small.
  - split_and!; [done | done | by left |].
    intros Hlt. by rewrite N.div_small.
Qed.

Lemma formatTime_two_digits_witness :
  ∃ ss, formatTime (Whole 125) = Some (lit "2:" ++ ss)
        ∧ length ss = 2%nat
        ∧ (ss = lit "5" ∨ ss = lit "05").
Proof.
  destruct (formatTime_two_digits 125) as (ss & Hfmt & Hlen & _ & Hss & _).
  - vm_compute. reflexivity.
  - exists ss. split_and!; [exact Hfmt | exact Hlen | exact Hss].
Defined.

End PlayerFacts.

(** ** From the upload to the player *)

Module UploadToPlayer.
Import Js Regex VideoUtils VideoFacts StringFacts Spec Storage ClassifierMore.

(** Sanitizing keeps a video extension. *)
Lemma sanitize_extension (p e : list N) :
  video_extension e → sanitize (p ++ code "." :: e) = sanitize p ++ code "." :: e.
Proof.
  intros He. rewrite !sanitize_spec, map_app. f_equal. simpl. f_equal.
  assert (∀ x y, lower x = y → kept y = true →
                 (97 ≤ y → y ≤ 122 → kept (y - 32) = true) → kept x = true) as Hk.
  { intros x y Hx H1 H2. unfold lower in Hx.
    destruct (N.leb_spec 65 x), (N.leb_spec x 90); simpl in Hx; try by subst.
    replace x with (y - 32) by lia. apply H2; lia. }
  assert (Forall (λ c, kept c = true) e) as Hall.
  { unfold video_extension in He. rewrite !elem_of_cons, elem_of_nil in He.
    destruct He as [He|[He|[He|[He|[]]]]].
    - destruct e as [|x1 [|x2 [|x3 [|? ?]]]]; try done. injection He as H1 H2 H3.
      repeat constructor;
        [apply (Hk _ _ H1) | apply (Hk _ _ H2) | apply (Hk _ _ H3)];
        first [reflexivity | intros; first [reflexivity | lia]].
    - destruct e as [|x1 [|x2 [|x3 [|x4 [|? ?]]]]]; try done. injection He as H1 H2 H3 H4.
      repeat constructor;
        [apply (Hk _ _ H1) | apply (Hk _ _ H2) | apply (Hk _ _ H3) | apply (Hk _ _ H4)];
        first [reflexivity | intros; first [reflexivity | lia]].
    - destruct e as [|x1 [|x2 [|x3 [|? ?]]]]; try done. injection He as H1 H2 H3.
      repeat constructor;
        [apply (Hk _ _ H1) | apply (Hk _ _ H2) | apply (Hk _ _ H3)];
        first [reflexivity | intros; first [reflexivity | lia]].
    - destruct e as [|x1 [|x2 [|x3 [|? ?]]]]; try done. injection He as H1 H2 H3.
      repeat constructor;
        [apply (Hk _ _ H1) | apply (Hk _ _ H2) | apply (Hk _ _ H3)];
        first [reflexivity | intros; first [reflexivity | lia]]. }
  clear He. induction Hall as [|c e Hc _ IH]; cbn [map]; [done|]. by rewrite Hc, IH.
Qed.

(** The URL that the raw back end returns for an uploaded file whose name
    ends with a dot and a video extension is classified, unchanged, as a
    direct file, unless it mentions one of the three hosts. *)
Theorem uploaded_video_is_direct (cfg : S3Config) (timestamp : N) (file : File)
    (folder p e : list N) :
  name file = p ++ code "." :: e →
  video_extension e →
  includes (lit "youtube.com/") (s3_url cfg (s3_key folder timestamp file)) = false →
  includes (lit "youtu.be/") (s3_url cfg (s3_key folder timestamp file)) = false →
  includes (lit "vimeo.com/") (s3_url cfg (s3_key folder timestamp file)) = false →
  parseVideoUrl (s3_url cfg (s3_key folder timestamp file)) =
    {| type := direct; url := s3_url cfg (s3_key folder timestamp file);
       embedUrl := None; videoId := None |}.
Proof.
  intros Hname He.
  assert (∃ mid, s3_url cfg (s3_key folder timestamp file) = 104 :: mid ++ code "." :: e)
    as [mid Hurl].
  { unfold s3_url, s3_key. rewrite Hname, sanitize_extension by done.
    set (tail := lit "/" ++ string_of_N timestamp ++ lit "-" ++ sanitize p).
    assert (∀ host, lit "https://" ++ host
                      ++ folder ++ lit "/" ++ string_of_N timestamp ++ lit "-"
                      ++ sanitize p ++ code "." :: e
                    = 104 :: (lit "ttps://" ++ host ++ folder ++ tail) ++ code "." :: e)
      as Hshape.
    { intros host. unfold tail.
      change (lit "https://") with (104 :: lit "ttps://").
      cbn [app]. f_equal. by rewrite <- !app_assoc. }
    destruct (is_empty (cloudFrontDomain cfg)).
    - eexists. rewrite <- (Hshape (bucket cfg ++ lit ".s3." ++ region cfg
                                     ++ lit ".amazonaws.com/")).
      by rewrite <- !app_assoc.
    - eexists. rewrite <- (Hshape (cloudFrontDomain cfg ++ lit "/")).
      by rewrite <- !app_assoc. }
  rewrite Hurl.
  assert (trim ((104 :: mid) ++ code "." :: e ++ []) = (104 :: mid) ++ code "." :: e ++ [])
    as Htrim.
  { rewrite app_nil_r. destruct (extension_last e He) as (e0 & x & -> & Hx).
    replace ((104 :: mid) ++ code "." :: e0 ++ [x])
      with (104 :: (mid ++ code "." :: e0) ++ [x])
      by (by rewrite <- !app_comm_cons, <- !app_assoc).
    by apply trim_fixed. }
  intros Hy1 Hy2 Hv.
  pose proof (no_marker_direct (104 :: mid) e [] He) as H.
  rewrite Htrim in H. rewrite app_nil_r in H. simpl app in H.
  apply H; [by left | constructor | done | done | done].
Qed.

Lemma uploaded_video_is_direct_witness :
  parseVideoUrl (s3_url Samples.cdn_cfg (s3_key (lit "videos") 1700000000000 Samples.clip_50MB)) =
    {| type := direct;
       url := s3_url Samples.cdn_cfg (s3_key (lit "videos") 1700000000000 Samples.clip_50MB);
       embedUrl := None; videoId := None |}.
Proof.
  apply (uploaded_video_is_direct Samples.cdn_cfg 1700000000000 Samples.clip_50MB
           (lit "videos") (lit "clip") (lit "mp4")).
  - reflexivity.
  - unfold video_extension. vm_compute. constructor.
  - vm_compute. reflexivity.
  - vm_compute. reflexivity.
  - vm_compute. reflexivity.
Defined.

(** Without a CloudFront domain the same URL does not lead back to its key. *)
Lemma delete_without_cdn_domain_witness :
  s3_key_of_url
    {| region := lit "eu-west-1"; accessKeyId := lit "AKIAEXAMPLE";
       secretAccessKey := lit "secret"; bucket := lit "media"; cloudFrontDomain := [] |}
    (s3_url
       {| region := lit "eu-west-1"; accessKeyId := lit "AKIAEXAMPLE";
          secretAccessKey := lit "secret"; bucket := lit "media"; cloudFrontDomain := [] |}
       (lit "uploads/1-a.png"))
  = Some [].
Proof. apply StorageClaims.delete_without_cdn_domain. reflexivity. Defined.

End UploadToPlayer.

(** ** Keys, display names and the upload handler at their edges *)

Module EdgeFacts.
Import Js Storage StringFacts Spec.

Lemma digits_of_uint_inj (d d' : Decimal.uint) :
  digits_of_uint d = digits_of_uint d' → d = d'.
Proof.
  revert d'. induction d as [|d IH|d IH|d IH|d IH|d IH|d IH|d IH|d IH|d IH|d IH];
    intros [|e|e|e|e|e|e|e|e|e|e] H; cbn [digits_of_uint] in H;
    try discriminate H; try reflexivity;
    injection H as H; f_equal; by apply IH.
Qed.

Lemma string_of_N_inj (n n' : N) : string_of_N n = string_of_N n' → n = n'.
Proof.
  unfold string_of_N. intros H. by apply DecimalN.Unsigned.to_uint_inj, digits_of_uint_inj.
Qed.

Lemma string_of_N_no_dash (n : N) : 45 ∉ string_of_N n.
Proof.
  intros H. pose proof (string_of_N_digits n) as Hd. rewrite Forall_forall in Hd.
  apply Hd in H. lia.
Qed.

Lemma stamped_inj (t t' : N) (s s' : list N) :
  string_of_N t ++ 45 :: s = string_of_N t' ++ 45 :: s' → t = t' ∧ s = s'.
Proof.
  intros H.
  assert (string_of_N t = string_of_N t') as Hd.
  { apply (f_equal (split_go [45] 0)) in H.
    rewrite !split_char_first in H by apply string_of_N_no_dash.
    by injection H. }
  split; [by apply string_of_N_inj|].
  rewrite Hd in H. apply app_inv_head in H. by injection H.
Qed.

(** Two uploads get the same key exactly when they happen in the same
    millisecond with names that are equal after sanitizing, in both back
    ends: the time stamp is all that keeps two files of one name apart, and
    names that differ only in replaced characters are not kept apart by
    anything else. *)
Theorem upload_keys_collide_iff (folder : list N) (t t' : N) (f f' : File) :
  (s3_key folder t f = s3_key folder t' f'
     ↔ t = t' ∧ sanitize (name f) = sanitize (name f'))
  ∧ (supabase_path t f = supabase_path t' f'
     ↔ t = t' ∧ sanitize (name f) = sanitize (name f')).
Proof.
  unfold s3_key, supabase_path. change (lit "-") with [45]. cbn [app].
  split; split.
  - intros H. apply app_inv_head in H. change (lit "/") with [47] in H. cbn [app] in H.
    injection H as H. by apply stamped_inj.
  - by intros [-> ->].
  - apply stamped_inj.
  - by intros [-> ->].
Qed.

Lemma Decode_malformed (a b : list N) :
  37 ∉ a → Uri.ParseHexOctet b = None → Uri.Decode 0 (a ++ 37 :: b) = None.
Proof.
  intros Ha Hb. induction a as [|c a IH].
  - cbn [app Uri.Decode]. rewrite N.eqb_refl. unfold Uri.decode_escape. by rewrite Hb.
  - rewrite not_elem_of_cons in Ha. destruct Ha as [Hne Ha].
    cbn [app Uri.Decode]. apply not_eq_sym, N.eqb_neq in Hne.
    rewrite Hne, IH by done. done.
Qed.

(** A last piece with a percent sign that is not followed by two hexadecimal
    digits has no display name: [decodeURIComponent] throws, and
    [getFileName], which is called while the list is rendered, passes the
    exception on. *)
Theorem getFileName_malformed_escape (base a b : list N) :
  code "/" ∉ a → code "/" ∉ b → code "%" ∉ a → Uri.ParseHexOctet b = None →
  MediaManager.getFileName (base ++ lit "/" ++ a ++ code "%" :: b) = None.
Proof.
  intros Ha Hb Hpct Hhex.
  unfold MediaManager.getFileName, Uri.decodeURIComponent.
  change (lit "/") with [47]. simpl split. simpl app.
  rewrite split_char_last.
  - simpl default. change (code "%") with 37. by rewrite Decode_malformed.
  - rewrite elem_of_app, elem_of_cons. intros [H|[H|H]]; [by apply Ha | | by apply Hb].
    vm_compute in H. discriminate H.
Qed.

Lemma getFileName_malformed_escape_witness :
  MediaManager.getFileName
    (lit "https://cdn.example.com/uploads" ++ lit "/" ++ lit "1-100" ++ code "%" :: lit ".png")
  = None.
Proof.
  apply getFileName_malformed_escape;
    try (intros H; apply list_elem_of_In in H; vm_compute in H; intuition discriminate).
  reflexivity.
Defined.

(** [handleFileSelect] tells its parent about a file exactly when a file was
    selected, it is within the size limit and the storage service accepted
    it, and then with the public URL of the stored path.  Whenever the handler
    does anything, it ends by clearing the file input, the component is no
    longer uploading, the progress is back at zero, and the success flag is
    set exactly when no error is shown. *)
Theorem upload_reported_iff_stored (getPublicUrl : Bucket → list N → list N)
    (bucket : Bucket) (maxSizeMB : Z) (timestamp : N) (reply : list N + list N)
    (st : FileUpload.state) (selected : option File) :
  let res := FileUpload.handleFileSelect getPublicUrl bucket maxSizeMB timestamp reply st
               selected in
  (∀ u, FileUpload.OnUploadComplete u ∈ res.2
        ↔ ∃ file path, selected = Some file
            ∧ (Z.of_N (size file) ≤ maxSizeMB * 1024 * 1024)%Z
            ∧ reply = inr path ∧ u = getPublicUrl bucket path)
  ∧ (res.2 ≠ [] →
       last res.2 = Some FileUpload.ClearFileInput
       ∧ FileUpload.uploading res.1 = false
       ∧ FileUpload.progress res.1 = 0
       ∧ (FileUpload.success res.1 = true ↔ FileUpload.error res.1 = [])).
Proof.
  cbv zeta. unfold FileUpload.handleFileSelect.
  destruct selected as [file|].
  2:{ split; [|done]. intros u. split; [by intros H%elem_of_nil|].
      by intros (file & path & H & _). }
  destruct (Z.gtb_spec (Z.of_N (size file)) (maxSizeMB * 1024 * 1024)) as [Hgt|Hle].
  { split; [|done]. intros u. split; [by intros H%elem_of_nil|].
    intros (file' & path & [= <-] & Hsize & _). lia. }
  unfold uploadFileToSupabase, report. destruct reply as [message|path]; cbn.
  - split.
    + intros u. split.
      * intros H. repeat (apply elem_of_cons in H as [H|H]; [discriminate H|]).
        by apply elem_of_nil in H.
      * by intros (file' & path & _ & _ & H & _).
    + intros _. split_and!; [done | done | done |]. split; [done|].
      intros H. discriminate H.
  - split.
    + intros u. split.
      * intros H. repeat (apply elem_of_cons in H as [H|H]; try discriminate H).
        -- injection H as ->. by exists file, path.
        -- by apply elem_of_nil in H.
      * intros (file' & path' & _ & _ & [= <-] & ->). set_solver.
    + intros _. by split_and!.
Qed.

End EdgeFacts.
